(** * objcache: a shallow embedding of src/objcache/objcache.go

    Sequential model of the package.  Go values are modelled as follows:
    - [error] is [option string] ([None] is the nil error);
    - a [Value] is an interface: [None] is the nil interface, [Some o] a
      dynamic value [o];
    - the user callbacks (the Getter, a Value's Dispose, the group hook)
      are recorded in a trace of events; Dispose returns the error stored
      in the value, the Getter is a function of the key;
    - int64 counters ([nget], [nhit], [nevict], [AtomicInt]) are [Z] with
      the two's complement wrap-around of Go written out;
    - a panic is an outcome of its own; the state reached when the panic
      is raised is kept (a caller may recover it). *)

From Stdlib Require Import ZArith List Lia Ascii.
From stdpp Require Import base gmap strings list.
Import ListNotations.
Open Scope Z_scope.

(** ** A state monad with Go panics *)

Inductive outcome (A : Type) : Type :=
| Ret (a : A)
| Panic (msg : string).
Arguments Ret {A} a.
Arguments Panic {A} msg.

Definition ST (S A : Type) : Type := S -> outcome A * S.

Definition st_ret {S A} (a : A) : ST S A := fun s => (Ret a, s).

Definition st_bind {S A B} (m : ST S A) (k : A -> ST S B) : ST S B :=
  fun s => match m s with
           | (Ret a, s') => k a s'
           | (Panic msg, s') => (Panic msg, s')
           end.

Definition st_panic {S A} (msg : string) : ST S A := fun s => (Panic msg, s).
Definition st_get {S} : ST S S := fun s => (Ret s, s).
Definition st_put {S} (s : S) : ST S unit := fun _ => (Ret tt, s).
Definition st_modify {S} (f : S -> S) : ST S unit := fun s => (Ret tt, f s).

Notation "'do' x <- m ; k" := (st_bind m (fun x => k))
  (at level 200, x name, m at level 100, k at level 200).

(** ** Go int64 arithmetic *)

Definition wrap64 (z : Z) : Z := (z + 2 ^ 63) mod 2 ^ 64 - 2 ^ 63.

(** [x++] and [atomic.AddInt64(&x, n)] on an int64. *)
Definition add64 (x n : Z) : Z := wrap64 (x + n).

(** ** Values, errors and events *)

Definition error := option string.

(** A dynamic value stored in a [Value] interface: an identity and the
    error its [Dispose] method returns. *)
Record ValObj := { vid : nat; vdispose : error }.

#[global] Instance ValObj_eq_dec : EqDecision ValObj.
Proof. solve_decision. Defined.

Definition Value := option ValObj.

Definition loc := N.

(** What the callbacks of the package do, in the order they run.
    [EvHook h g reg]: the group hook [h] was called with the group at [g]
    while the registry held [reg]. *)
Inductive Event :=
| EvGetter (key : string)
| EvDispose (v : ValObj)
| EvHook (h : nat) (g : loc) (reg : gmap string loc).

(** A [Getter] (and a [GetterFunc]) maps a key to its result. *)
Definition Getter := string -> Value * error.

(** ** The bounded cache: package objcache/lru *)

(** Modelled from the spec: the Bounded Cache of package objcache/lru,
    which is not under src/.  The spec gives its contract: [New] takes the
    maximum entry count; [Add] inserts, and when the cache then holds more
    entries than its capacity the policy removes one entry; an overwrite
    that displaces the old value of the key also removes that entry; every
    removed entry is handed to the eviction hook with its key and value;
    [Get] looks a key up; [Len] is the number of resident entries.  The
    policy is least-recently-used (the package is [lru]): [ll] lists the
    entries, most recently used first, and the victim is the last one. *)
Record lruCache := { MaxEntries : Z; ll : list (string * Value) }.

Definition lru_New (maxEntries : Z) : lruCache :=
  {| MaxEntries := maxEntries; ll := [] |}.

Fixpoint lookup_entry (k : string) (l : list (string * Value)) : option Value :=
  match l with
  | [] => None
  | (k', v) :: l' => if String.eqb k k' then Some v else lookup_entry k l'
  end.

Fixpoint remove_entry (k : string) (l : list (string * Value)) : list (string * Value) :=
  match l with
  | [] => []
  | (k', v) :: l' => if String.eqb k k' then remove_entry k l' else (k', v) :: remove_entry k l'
  end.

Definition lru_Len (c : lruCache) : nat := length (ll c).

(** [Get] moves a hit to the front. *)
Definition lru_Get (k : string) (c : lruCache) : option Value * lruCache :=
  match lookup_entry k (ll c) with
  | Some v => (Some v, {| MaxEntries := MaxEntries c; ll := (k, v) :: remove_entry k (ll c) |})
  | None => (None, c)
  end.

(** [Add] returns the entries removed by the policy, in the order the
    eviction hook is called on them, and the new cache.  The hook is
    called synchronously as the last step of [Add]. *)
Definition lru_Add (k : string) (v : Value) (c : lruCache)
  : list (string * Value) * lruCache :=
  match lookup_entry k (ll c) with
  | Some old =>
      let c' := {| MaxEntries := MaxEntries c; ll := (k, v) :: remove_entry k (ll c) |} in
      if decide (old = v) then ([], c') else ([(k, old)], c')
  | None =>
      let l' := (k, v) :: ll c in
      if Z.ltb (MaxEntries c) (Z.of_nat (length l'))
      then (match last l' with Some e => [e] | None => [] end,
            {| MaxEntries := MaxEntries c; ll := removelast l' |})
      else ([], {| MaxEntries := MaxEntries c; ll := l' |})
  end.

(** ** The cache wrapper: type [cache] *)

Record cache := { lru : lruCache; nhit : Z; nget : Z; nevict : Z }.

(** The zero value of [cache] before [init]: the model gives it an empty
    bounded cache of capacity 0, which [init] replaces. *)
Definition zero_cache : cache :=
  {| lru := lru_New 0; nhit := 0; nget := 0; nevict := 0 |}.

Definition set_lru (l : lruCache) (c : cache) : cache :=
  {| lru := l; nhit := nhit c; nget := nget c; nevict := nevict c |}.
Definition incr_nhit (c : cache) : cache :=
  {| lru := lru c; nhit := add64 (nhit c) 1; nget := nget c; nevict := nevict c |}.
Definition incr_nget (c : cache) : cache :=
  {| lru := lru c; nhit := nhit c; nget := add64 (nget c) 1; nevict := nevict c |}.
Definition incr_nevict (c : cache) : cache :=
  {| lru := lru c; nhit := nhit c; nget := nget c; nevict := add64 (nevict c) 1 |}.

(** [AtomicInt] fields of [Stats]. *)
Record Stats := { Gets : Z; CacheHits : Z }.

Definition zero_Stats : Stats := {| Gets := 0; CacheHits := 0 |}.

Record CacheStats := { Items : Z; cs_Gets : Z; cs_Hits : Z; Evictions : Z }.

Record Group := {
  name : string;
  getter : Getter;
  mainCache : cache;
  g_Stats : Stats
}.

(** State of the calls on one group: the group and the trace of the
    callbacks run so far. *)
Record GS := { grp : Group; trace : list Event }.

Definition set_mainCache (c : cache) (g : Group) : Group :=
  {| name := name g; getter := getter g; mainCache := c; g_Stats := g_Stats g |}.
Definition set_Stats (st : Stats) (g : Group) : Group :=
  {| name := name g; getter := getter g; mainCache := mainCache g; g_Stats := st |}.

Definition upd_cache (f : cache -> cache) : ST GS unit :=
  st_modify (fun s => {| grp := set_mainCache (f (mainCache (grp s))) (grp s);
                         trace := trace s |}).
Definition upd_Stats (f : Stats -> Stats) : ST GS unit :=
  st_modify (fun s => {| grp := set_Stats (f (g_Stats (grp s))) (grp s);
                         trace := trace s |}).
Definition emit (e : Event) : ST GS unit :=
  st_modify (fun s => {| grp := grp s; trace := trace s ++ [e] |}).

(** The message of the runtime panic of a failed type assertion. *)
Definition nil_interface_msg : string :=
  "interface conversion: interface is nil, not objcache.Value".

(** [value.(Value)]: the type assertion from [interface{}] panics on the
    nil interface. *)
Definition assert_Value (v : Value) : ST GS ValObj :=
  match v with
  | Some o => st_ret o
  | None => st_panic nil_interface_msg
  end.

(** [v.Dispose()] *)
Definition Dispose (o : ValObj) : ST GS error :=
  do _ <- emit (EvDispose o); st_ret (vdispose o).

(** The eviction hook installed by [init]:
    [value.(Value).Dispose(); c.nevict++] (the error of Dispose is
    dropped). *)
Definition cache_onEvicted (key : string) (value : Value) : ST GS unit :=
  do o <- assert_Value value;
  do _ <- Dispose o;
  upd_cache incr_nevict.

Fixpoint run_onEvicted (l : list (string * Value)) : ST GS unit :=
  match l with
  | [] => st_ret tt
  | (k, v) :: l' => do _ <- cache_onEvicted k v; run_onEvicted l'
  end.

(** [func (c *cache) init(cacheNum int)] *)
Definition cache_init (cacheNum : Z) (c : cache) : cache := set_lru (lru_New cacheNum) c.

(** [func (c *cache) add(key string, value Value)] *)
Definition cache_add (key : string) (value : Value) : ST GS unit :=
  do s <- st_get;
  let '(evicted, l') := lru_Add key value (lru (mainCache (grp s))) in
  do _ <- upd_cache (set_lru l');
  run_onEvicted evicted.

(** [func (c *cache) get(key string) (value Value, ok bool)]; on a miss
    [value] keeps its zero value, the nil interface. *)
Definition cache_get (key : string) : ST GS (Value * bool) :=
  do _ <- upd_cache incr_nget;
  do s <- st_get;
  let '(r, l') := lru_Get key (lru (mainCache (grp s))) in
  do _ <- upd_cache (set_lru l');
  match r with
  | Some v =>
      do o <- assert_Value v;
      do _ <- upd_cache incr_nhit;
      st_ret (Some o, true)
  | None => st_ret (None, false)
  end.

Definition itemsLocked (c : cache) : Z := Z.of_nat (lru_Len (lru c)).

(** [func (c *cache) stats() CacheStats] *)
Definition cache_stats (c : cache) : CacheStats :=
  {| Items := itemsLocked c; cs_Gets := nget c; cs_Hits := nhit c;
     Evictions := nevict c |}.

(** [func (c *cache) items() int64] *)
Definition cache_items (c : cache) : Z := itemsLocked c.

(** ** Group *)

(** [g.getter.Get(key)] *)
Definition call_getter (key : string) : ST GS (Value * error) :=
  do s <- st_get;
  do _ <- emit (EvGetter key);
  st_ret (getter (grp s) key).

(** [func (g *Group) Get(key string) (val Value, err error)] *)
Definition Group_Get (key : string) : ST GS (Value * error) :=
  do _ <- upd_Stats (fun st => {| Gets := add64 (Gets st) 1; CacheHits := CacheHits st |});
  do r <- cache_get key;
  let '(val, ok) := r in
  if ok then
    do _ <- upd_Stats (fun st => {| Gets := Gets st; CacheHits := add64 (CacheHits st) 1 |});
    st_ret (val, None)
  else
    do r' <- call_getter key;
    let '(val', err) := r' in
    match err with
    | None => do _ <- cache_add key val'; st_ret (val', err)
    | Some _ => st_ret (val', err)
    end.

(** [func (g *Group) Name() string] *)
Definition Group_Name (g : Group) : string := name g.

(** [func (g *Group) CacheStats() CacheStats] *)
Definition Group_CacheStats (g : Group) : CacheStats := cache_stats (mainCache g).

(** A sequence of calls [g.Get(k)] on one group; a call that panics is
    recovered by its caller and the next call runs on the state it left. *)
Fixpoint run_gets (keys : list string) (s : GS) : GS :=
  match keys with
  | [] => s
  | k :: keys' => run_gets keys' (snd (Group_Get k s))
  end.


(** A sequence of calls [c.add(k, v)]. *)
Fixpoint run_adds (kvs : list (string * Value)) : ST GS unit :=
  match kvs with
  | [] => st_ret tt
  | (k, v) :: kvs' => do _ <- cache_add k v; run_adds kvs'
  end.

(** ** AtomicInt *)

(** [func (i *AtomicInt) Add(n int64)]: [atomic.AddInt64] adds with the
    int64 wrap-around. *)
Definition AtomicInt_Add (n : Z) (i : Z) : Z := add64 i n.

(** [func (i *AtomicInt) Get() int64] *)
Definition AtomicInt_Get (i : Z) : Z := i.

(** The ASCII digit of [d], [0 <= d < 10]: ['0' + d]. *)
Definition digit_char (d : Z) : ascii := ascii_of_nat (48 + Z.to_nat d).

(** The decimal digits of [u >= 0] put in front of [acc], the least
    significant digit first computed, as [strconv]'s [formatBits] does for
    base 10; [fuel] bounds the number of digits (20 covers any int64). *)
Fixpoint fmt_digits (fuel : nat) (u : Z) (acc : string) : string :=
  match fuel with
  | O => acc
  | S f =>
      let acc' := String (digit_char (u mod 10)) acc in
      if Z.ltb u 10 then acc' else fmt_digits f (u / 10) acc'
  end.

(** [strconv.FormatInt(i, 10)]: a minus sign for a negative [i], then the
    decimal digits of its absolute value. *)
Definition FormatInt (i : Z) : string :=
  if Z.ltb i 0 then String "-" (fmt_digits 20 (- i) EmptyString)
  else fmt_digits 20 i EmptyString.

(** [func (i *AtomicInt) String() string] *)
Definition AtomicInt_String (i : Z) : string := FormatInt (AtomicInt_Get i).

(** A reader of decimal numerals (an optional minus sign, then at least
    one ASCII digit), to state what [String] prints. *)
Fixpoint dec_acc (s : string) (acc : Z) : option Z :=
  match s with
  | EmptyString => Some acc
  | String c s' =>
      let d := Z.of_nat (nat_of_ascii c) - 48 in
      if Z.leb 0 d && Z.ltb d 10 then dec_acc s' (10 * acc + d) else None
  end.

Definition dec_digits (s : string) : option Z :=
  match s with
  | EmptyString => None
  | _ => dec_acc s 0
  end.

Definition read_dec (s : string) : option Z :=
  match s with
  | String c s' => if Ascii.eqb c "-" then option_map Z.opp (dec_digits s') else dec_digits s
  | EmptyString => None
  end.

(** ** Auxiliary notions of the proofs *)

(** Well-formed bounded caches: keys are unique. *)

Definition keys_nodup (l : list (string * Value)) : Prop := NoDup (map fst l).


(** The range of a Go int64. *)
Definition in_int64 (z : Z) : Prop := - 2 ^ 63 <= z < 2 ^ 63.

(** The Values of a list of entries, nil interfaces left out. *)
Fixpoint values_of (l : list (string * Value)) : list ValObj :=
  match l with
  | [] => []
  | (_, Some o) :: l' => o :: values_of l'
  | (_, None) :: l' => values_of l'
  end.

Definition set_nevict (z : Z) (c : cache) : cache :=
  {| lru := lru c; nhit := nhit c; nget := nget c; nevict := z |}.

Definition set_cache_in (c : cache) (s : GS) : GS :=
  {| grp := set_mainCache c (grp s); trace := trace s |}.


(** The state after the first two steps of [g.Get(key)]:
    [g.Stats.Gets.Add(1)] and the [c.nget++] of [c.get]. *)
Definition bump_get (s : GS) : GS :=
  {| grp := {| name := name (grp s); getter := getter (grp s);
               mainCache := incr_nget (mainCache (grp s));
               g_Stats := {| Gets := add64 (Gets (g_Stats (grp s))) 1;
                             CacheHits := CacheHits (g_Stats (grp s)) |} |};
     trace := trace s |}.

(** The state after a hit on a non-nil Value: the bounded cache is [l']. *)
Definition hit_state (l' : lruCache) (s : GS) : GS :=
  {| grp := {| name := name (grp s); getter := getter (grp s);
               mainCache := incr_nhit (set_lru l' (incr_nget (mainCache (grp s))));
               g_Stats := {| Gets := add64 (Gets (g_Stats (grp s))) 1;
                             CacheHits := add64 (CacheHits (g_Stats (grp s))) 1 |} |};
     trace := trace s |}.


(** The counters of a cache after [n] calls of [Get] from a new group,
    while no int64 counter has wrapped. *)
Definition counters_inv (n : nat) (s : GS) : Prop :=
  nget (mainCache (grp s)) = Z.of_nat n
  /\ 0 <= nhit (mainCache (grp s)) <= nget (mainCache (grp s))
  /\ 0 <= nevict (mainCache (grp s)) <= nget (mainCache (grp s)).

(** ** The group registry *)

(** A group hook [func( *Group)] is identified by a number; calling it
    records an [EvHook] event. *)
Record World := {
  groups : gmap string loc;
  heap : gmap loc Group;
  next_loc : loc;
  newGroupHook : option nat;
  wtrace : list Event
}.

(** [g := &Group{name: name, getter: getter}; g.mainCache.init(cacheNum)] *)
Definition newGroupValue (nm : string) (cacheNum : Z) (gt : Getter) : Group :=
  {| name := nm; getter := gt; mainCache := cache_init cacheNum zero_cache;
     g_Stats := zero_Stats |}.

Definition alloc (g : Group) : ST World loc :=
  fun w => (Ret (next_loc w),
            {| groups := groups w; heap := <[next_loc w := g]> (heap w);
               next_loc := N.succ (next_loc w); newGroupHook := newGroupHook w;
               wtrace := wtrace w |}).

(** [if newGroupHook != nil { newGroupHook(g) }] *)
Definition call_hook (g : loc) : ST World unit :=
  fun w => match newGroupHook w with
           | None => (Ret tt, w)
           | Some h =>
               (Ret tt, {| groups := groups w; heap := heap w; next_loc := next_loc w;
                           newGroupHook := newGroupHook w;
                           wtrace := wtrace w ++ [EvHook h g (groups w)] |})
           end.

(** [groups[name] = g] *)
Definition register (nm : string) (g : loc) : ST World unit :=
  st_modify (fun w => {| groups := <[nm := g]> (groups w); heap := heap w;
                         next_loc := next_loc w; newGroupHook := newGroupHook w;
                         wtrace := wtrace w |}).

(** [func RegisterNewGroupHook(fn func( *Group))] *)
Definition RegisterNewGroupHook (fn : option nat) : ST World unit :=
  fun w => match newGroupHook w with
           | Some _ => (Panic "RegisterNewGroupHook called more than once", w)
           | None => (Ret tt, {| groups := groups w; heap := heap w; next_loc := next_loc w;
                                 newGroupHook := fn; wtrace := wtrace w |})
           end.

(** [func GetGroup(name string) *Group]; [None] is the nil pointer. *)
Definition GetGroup (nm : string) : ST World (option loc) :=
  fun w => (Ret (groups w !! nm), w).

(** [func NewGroup(name string, cacheNum int, getter Getter) *Group];
    the registry lock is held for the whole call. *)
Definition NewGroup (nm : string) (cacheNum : Z) (gt : Getter) : ST World loc :=
  do w <- st_get;
  match groups w !! nm with
  | Some _ => st_panic (String.append "duplicate registration of group " nm)
  | None =>
      do g <- alloc (newGroupValue nm cacheNum gt);
      do _ <- call_hook g;
      do _ <- register nm g;
      st_ret g
  end.



(** ** Concrete inputs *)

Definition obj (n : nat) : ValObj := {| vid := n; vdispose := None |}.

(** A Value whose [Dispose] fails. *)
Definition obj_failing (n : nat) : ValObj := {| vid := n; vdispose := Some "close failed" |}.

(** A [GetterFunc]: "x" fails with "not found", "n" loads the nil
    interface, "bad" loads a Value whose Dispose fails. *)
Definition demo_getter : Getter := fun k =>
  if String.eqb k "x" then (None, Some "not found")
  else if String.eqb k "n" then (None, None)
  else if String.eqb k "bad" then (Some (obj_failing 9), None)
  else if String.eqb k "a" then (Some (obj 1), None)
  else if String.eqb k "b" then (Some (obj 2), None)
  else if String.eqb k "c" then (Some (obj 3), None)
  else (Some (obj 0), None).

(** A group as [NewGroup("demo", cap, demo_getter)] builds it. *)
Definition demo_group (cap : Z) : GS :=
  {| grp := newGroupValue "demo" cap demo_getter; trace := [] |}.

(** An empty registry, with the group hook [hook] installed or not. *)
Definition world0 (hook : option nat) : World :=
  {| groups := ∅; heap := ∅; next_loc := 0%N; newGroupHook := hook; wtrace := [] |}.

(** The hook events added by [call_hook]. *)
Definition hook_events (w : World) (g : loc) : list Event :=
  match newGroupHook w with
  | Some h => [EvHook h g (groups w)]
  | None => []
  end.


(** The registry is consistent: every registered name refers to an
    allocated group of that name, and every allocated location is below
    [next_loc]. *)
Definition registry_ok (w : World) : Prop :=
  (forall nm l, groups w !! nm = Some l -> exists g, heap w !! l = Some g /\ name g = nm)
  /\ (forall l g, heap w !! l = Some g -> (l < next_loc w)%N).

(** The worlds a program reaches from the start of the process through
    calls of [NewGroup], [RegisterNewGroupHook] and [GetGroup] (a call
    that panics included: its caller may recover). *)
Inductive reachable : World -> Prop :=
| reach_init : reachable (world0 None)
| reach_NewGroup nm cacheNum gt w :
    reachable w -> reachable (snd (NewGroup nm cacheNum gt w))
| reach_Register fn w :
    reachable w -> reachable (snd (RegisterNewGroupHook fn w))
| reach_GetGroup nm w :
    reachable w -> reachable (snd (GetGroup nm w)).

(** * Proofs *)

(** ** Entries of the bounded cache *)

Lemma lookup_entry_None_notin (k : string) (l : list (string * Value)) :
  lookup_entry k l = None <-> k ∉ map fst l.
Proof.
  induction l as [|[k' v] l IH]; simpl.
  - split; [intros _; apply not_elem_of_nil | done].
  - destruct (String.eqb_spec k k') as [->|Hne].
    + split; [done|]. intros H. exfalso. apply H. constructor.
    + rewrite IH. rewrite elem_of_cons. tauto.
Qed.

Lemma lookup_entry_In (k : string) (v : Value) (l : list (string * Value)) :
  lookup_entry k l = Some v -> In (k, v) l.
Proof.
  induction l as [|[k' v'] l IH]; simpl; [done|].
  destruct (String.eqb_spec k k') as [->|Hne]; [intros [= ->]; by left|].
  intros H; right; auto.
Qed.

Lemma In_lookup_entry (k : string) (v : Value) (l : list (string * Value)) :
  keys_nodup l -> In (k, v) l -> lookup_entry k l = Some v.
Proof.
  unfold keys_nodup.
  induction l as [|[k' v'] l IH]; simpl; [done|].
  intros Hnd Hin. inversion Hnd as [|? ? Hnotin Hnd']; subst.
  destruct Hin as [[= -> ->]|Hin].
  - by rewrite String.eqb_refl.
  - destruct (String.eqb_spec k k') as [->|Hne]; [|auto].
    exfalso. apply Hnotin. apply list_elem_of_In, in_map_iff. by exists (k', v).
Qed.

Lemma lookup_remove_entry_eq (k : string) (l : list (string * Value)) :
  lookup_entry k (remove_entry k l) = None.
Proof.
  induction l as [|[k' v] l IH]; simpl; [done|].
  destruct (String.eqb_spec k k') as [->|Hne]; [done|].
  simpl. by rewrite (proj2 (String.eqb_neq k k') Hne).
Qed.

Lemma lookup_remove_entry_ne (k k' : string) (l : list (string * Value)) :
  k <> k' -> lookup_entry k' (remove_entry k l) = lookup_entry k' l.
Proof.
  intros Hne. induction l as [|[k0 v] l IH]; simpl; [done|].
  destruct (String.eqb_spec k k0) as [->|Hne0]; simpl.
  - rewrite IH. by rewrite (proj2 (String.eqb_neq k' k0) (not_eq_sym Hne)).
  - by rewrite IH.
Qed.

Lemma remove_entry_notin (k : string) (l : list (string * Value)) :
  k ∉ map fst l -> remove_entry k l = l.
Proof.
  induction l as [|[k' v] l IH]; simpl; [done|].
  rewrite elem_of_cons. intros Hn.
  destruct (String.eqb_spec k k') as [->|Hne]; [tauto|].
  f_equal. apply IH. tauto.
Qed.

Lemma keys_remove_entry (k : string) (l : list (string * Value)) :
  keys_nodup l -> keys_nodup (remove_entry k l) /\ (k ∉ map fst (remove_entry k l))
  /\ (forall k', (k' ∈ map fst (remove_entry k l)) -> (k' ∈ map fst l)).
Proof.
  unfold keys_nodup.
  induction l as [|[k' v] l IH]; simpl; intros Hnd.
  - split; [constructor|]. split; [apply not_elem_of_nil|]. done.
  - inversion Hnd as [|? ? Hnotin Hnd']; subst.
    destruct (IH Hnd') as (IH1 & IH2 & IH3).
    destruct (String.eqb_spec k k') as [->|Hne]; simpl.
    + split; [done|]. split; [done|]. intros k0 Hk0. apply elem_of_cons. right. auto.
    + split; [|split].
      * constructor; [|done]. intros Hin. apply Hnotin. auto.
      * rewrite elem_of_cons. intros [->|Hin]; [done|]. auto.
      * intros k0. rewrite !elem_of_cons. intros [->|Hin]; [by left|]. right. auto.
Qed.

Lemma length_remove_entry (k : string) (v : Value) (l : list (string * Value)) :
  keys_nodup l -> lookup_entry k l = Some v -> S (length (remove_entry k l)) = length l.
Proof.
  unfold keys_nodup.
  induction l as [|[k' v'] l IH]; simpl; intros Hnd Hl; [done|].
  inversion Hnd as [|? ? Hnotin Hnd']; subst.
  destruct (String.eqb_spec k k') as [->|Hne].
  - by rewrite remove_entry_notin.
  - simpl. f_equal. auto.
Qed.

(** ** int64 wrap-around *)

Lemma wrap64_small (z : Z) : - 2 ^ 63 <= z < 2 ^ 63 -> wrap64 z = z.
Proof.
  intros H. unfold wrap64. rewrite Z.mod_small; lia.
Qed.

Lemma wrap64_add_wrap (x y : Z) : wrap64 (wrap64 x + y) = wrap64 (x + y).
Proof.
  unfold wrap64.
  replace (((x + 2 ^ 63) mod 2 ^ 64 - 2 ^ 63 + y + 2 ^ 63))
    with ((x + 2 ^ 63) mod 2 ^ 64 + y) by lia.
  rewrite Zplus_mod_idemp_l. f_equal. f_equal. lia.
Qed.

(** ** The bounded cache *)

Lemma last_cons_Some {A} (x : A) (l : list A) : exists y, last (x :: l) = Some y /\ In y (x :: l).
Proof.
  revert x. induction l as [|x' l IH]; intros x.
  - exists x. split; [done|]. by left.
  - destruct (IH x') as (y & Hy & Hin). exists y. split; [done|]. by right.
Qed.

Lemma removelast_app_last {A} (x : A) (l : list A) (y : A) :
  last (x :: l) = Some y -> x :: l = removelast (x :: l) ++ [y].
Proof.
  revert x. induction l as [|x' l IH]; intros x H.
  - simpl in H. injection H as ->. done.
  - change (last (x' :: l) = Some y) in H. change (removelast (x :: x' :: l)) with (x :: removelast (x' :: l)).
    simpl. f_equal. by apply IH.
Qed.

Lemma lru_Add_keys (k : string) (v : Value) (c : lruCache) :
  keys_nodup (ll c) ->
  keys_nodup (ll (snd (lru_Add k v c)))
  /\ (forall e, In e (fst (lru_Add k v c)) -> ~ In e (ll (snd (lru_Add k v c))))
  /\ (length (fst (lru_Add k v c)) <= 1)%nat
  /\ MaxEntries (snd (lru_Add k v c)) = MaxEntries c.
Proof.
  intros Hnd. unfold lru_Add.
  destruct (lookup_entry k (ll c)) as [old|] eqn:Hl.
  - destruct (keys_remove_entry k (ll c) Hnd) as (H1 & H2 & _).
    assert (Hnd' : keys_nodup ((k, v) :: remove_entry k (ll c))) by (unfold keys_nodup; simpl; by constructor).
    destruct (decide (old = v)) as [->|Hne]; simpl.
    + split; [done|]. split; [done|]. split; [lia|done].
    + split; [done|]. split; [|split; [lia|done]].
      intros e [<-|[]] [Heq|Hin]; [congruence|].
      apply H2. apply list_elem_of_In, in_map_iff. by exists (k, old).
  - apply lookup_entry_None_notin in Hl.
    assert (Hnd' : keys_nodup ((k, v) :: ll c)) by (unfold keys_nodup; simpl; by constructor).
    destruct (Z.ltb (MaxEntries c) (Z.of_nat (length ((k, v) :: ll c)))); simpl.
    + destruct (last_cons_Some (k, v) (ll c)) as (y & Hy & _).
      simpl in Hy. rewrite Hy.
      pose proof (removelast_app_last _ _ _ Hy) as Happ.
      unfold keys_nodup in Hnd'. rewrite Happ, map_app in Hnd'.
      apply NoDup_app in Hnd' as (Hnd1 & Hdisj & _).
      split; [exact Hnd1|]. split; [|split; [simpl; lia|done]].
      intros e [<-|[]] Hin. apply (Hdisj (fst y)).
      * apply list_elem_of_In, in_map_iff. by exists y.
      * simpl. apply list_elem_of_singleton. done.
    + split; [done|]. split; [done|]. split; [simpl; lia|done].
Qed.

(** A key absent from a cache with room is added at the front. *)
Lemma lru_Add_fresh_room (k : string) (v : Value) (c : lruCache) :
  lookup_entry k (ll c) = None -> Z.of_nat (length (ll c)) < MaxEntries c ->
  lru_Add k v c = ([], {| MaxEntries := MaxEntries c; ll := (k, v) :: ll c |}).
Proof.
  intros Hl Hroom. unfold lru_Add. rewrite Hl.
  replace (Z.ltb (MaxEntries c) (Z.of_nat (length ((k, v) :: ll c)))) with false; [done|].
  symmetry. apply Z.ltb_ge. simpl length. lia.
Qed.

(** A key absent from a full cache evicts one entry; the size stays. *)
Lemma lru_Add_fresh_full (k : string) (v : Value) (c : lruCache) :
  lookup_entry k (ll c) = None -> Z.of_nat (length (ll c)) = MaxEntries c ->
  exists e, last ((k, v) :: ll c) = Some e /\
    lru_Add k v c = ([e], {| MaxEntries := MaxEntries c; ll := removelast ((k, v) :: ll c) |})
    /\ length (removelast ((k, v) :: ll c)) = length (ll c).
Proof.
  intros Hl Hfull. destruct (last_cons_Some (k, v) (ll c)) as (e & He & _).
  exists e. split; [done|]. split.
  - unfold lru_Add. rewrite Hl.
    replace (Z.ltb (MaxEntries c) (Z.of_nat (length ((k, v) :: ll c)))) with true.
    + simpl in He |- *. by rewrite He.
    + symmetry. apply Z.ltb_lt. simpl length. lia.
  - pose proof (removelast_app_last _ _ _ He) as Happ.
    apply (f_equal length) in Happ. rewrite length_app in Happ. simpl in Happ |- *. lia.
Qed.

(** With room for one entry, the added key is resident afterwards. *)
Lemma lru_Add_resident (k : string) (v : Value) (c : lruCache) :
  1 <= MaxEntries c -> Z.of_nat (length (ll c)) <= MaxEntries c ->
  lookup_entry k (ll (snd (lru_Add k v c))) = Some v.
Proof.
  intros H1 Hlen. unfold lru_Add.
  destruct (lookup_entry k (ll c)) as [old|] eqn:Hl.
  - destruct (decide (old = v)); simpl; by rewrite String.eqb_refl.
  - destruct (Z.ltb (MaxEntries c) (Z.of_nat (length ((k, v) :: ll c)))) eqn:Hlt; simpl.
    + destruct (ll c) as [|e l] eqn:Hll; simpl in *.
      * apply Z.ltb_lt in Hlt. lia.
      * by rewrite String.eqb_refl.
    + by rewrite String.eqb_refl.
Qed.

Lemma lru_Get_hit (k : string) (v : Value) (c : lruCache) :
  keys_nodup (ll c) -> lookup_entry k (ll c) = Some v ->
  fst (lru_Get k c) = Some v
  /\ keys_nodup (ll (snd (lru_Get k c)))
  /\ (forall k', lookup_entry k' (ll (snd (lru_Get k c))) = lookup_entry k' (ll c))
  /\ lru_Len (snd (lru_Get k c)) = lru_Len c
  /\ MaxEntries (snd (lru_Get k c)) = MaxEntries c.
Proof.
  intros Hnd Hl. unfold lru_Get, lru_Len. rewrite Hl. simpl.
  destruct (keys_remove_entry k (ll c) Hnd) as (H1 & H2 & _).
  split; [done|]. split; [unfold keys_nodup; simpl; by constructor|].
  split; [|split; [by apply length_remove_entry with v|done]].
  intros k'. destruct (String.eqb_spec k' k) as [->|Hne]; [done|].
  by rewrite lookup_remove_entry_ne.
Qed.

Lemma lru_Get_miss (k : string) (c : lruCache) :
  lookup_entry k (ll c) = None -> lru_Get k c = (None, c).
Proof. intros Hl. unfold lru_Get. by rewrite Hl. Qed.

(** ** The cache wrapper *)

Lemma add64_in_int64 (x n : Z) : in_int64 (add64 x n).
Proof.
  unfold in_int64, add64, wrap64.
  pose proof (Z.mod_pos_bound (x + n + 2 ^ 63) (2 ^ 64) ltac:(lia)). lia.
Qed.


Lemma set_mainCache_set_mainCache (c c' : cache) (g : Group) :
  set_mainCache c (set_mainCache c' g) = set_mainCache c g.
Proof. by destruct g. Qed.

(** The eviction hook over non-nil Values: one Dispose each, in order,
    and [nevict] counts them. *)
Lemma run_onEvicted_nonnil (ev : list (string * Value)) (s : GS) :
  Forall (fun e => snd e <> None) ev -> in_int64 (nevict (mainCache (grp s))) ->
  run_onEvicted ev s =
    (Ret tt, {| grp := set_mainCache
                         (set_nevict (wrap64 (nevict (mainCache (grp s)) + Z.of_nat (length ev)))
                                     (mainCache (grp s))) (grp s);
                trace := trace s ++ map EvDispose (values_of ev) |}).
Proof.
  revert s. induction ev as [|[k v] ev IH]; intros s Hnn Hin.
  - simpl. rewrite wrap64_small by (unfold in_int64 in Hin; lia).
    destruct s as [[nm gt [l h g e] st] tr]; unfold st_ret; simpl. by rewrite Z.add_0_r, app_nil_r.
  - inversion Hnn as [|? ? Hv Hnn']; subst. simpl in Hv.
    destruct v as [o|]; [|done].
    simpl. unfold cache_onEvicted, assert_Value, Dispose, emit, upd_cache, st_bind, st_ret, st_modify.
    simpl. rewrite IH; [| exact Hnn' | apply add64_in_int64].
    destruct s as [[nm gt [l h g e] st] tr]; simpl.
    unfold add64. rewrite wrap64_add_wrap. rewrite <- app_assoc. simpl.
    unfold set_mainCache, set_nevict, incr_nevict; simpl.
    do 5 f_equal. lia.
Qed.

Lemma cache_add_unfold (k : string) (v : Value) (s : GS) :
  cache_add k v s =
    let '(ev, l') := lru_Add k v (lru (mainCache (grp s))) in
    run_onEvicted ev (set_cache_in (set_lru l' (mainCache (grp s))) s).
Proof.
  unfold cache_add, st_bind, st_get, upd_cache, st_modify.
  destruct (lru_Add k v (lru (mainCache (grp s)))) as [ev l']. done.
Qed.

Lemma run_adds_app (kvs1 kvs2 : list (string * Value)) (s : GS) :
  run_adds (kvs1 ++ kvs2) s = st_bind (run_adds kvs1) (fun _ => run_adds kvs2) s.
Proof.
  revert s. induction kvs1 as [|[k v] kvs1 IH]; intros s; [done|].
  simpl. unfold st_bind at 1 2 3.
  destruct (cache_add k v s) as [[[]|msg] s']; [apply IH|done].
Qed.

(** Adding fresh distinct keys to a cache with room evicts nothing. *)
Lemma run_adds_room (kvs : list (string * Value)) (s : GS) :
  NoDup (map fst kvs) ->
  (forall k, k ∈ map fst kvs -> lookup_entry k (ll (lru (mainCache (grp s)))) = None) ->
  Z.of_nat (length (ll (lru (mainCache (grp s)))) + length kvs) <= MaxEntries (lru (mainCache (grp s))) ->
  run_adds kvs s =
    (Ret tt, set_cache_in (set_lru {| MaxEntries := MaxEntries (lru (mainCache (grp s)));
                                      ll := rev kvs ++ ll (lru (mainCache (grp s))) |}
                                    (mainCache (grp s))) s).
Proof.
  revert s. induction kvs as [|[k v] kvs IH]; intros s Hnd Hfresh Hroom.
  - simpl. destruct s as [[nm gt [[m l] h g e] st] tr]. done.
  - simpl in Hnd. inversion Hnd as [|? ? Hk Hnd']; subst.
    simpl. unfold st_bind. rewrite cache_add_unfold.
    rewrite lru_Add_fresh_room.
    2: { apply Hfresh. simpl. apply elem_of_cons. by left. }
    2: { simpl length in Hroom. lia. }
    simpl. rewrite IH.
    + destruct s as [[nm gt [[m l] h g e] st] tr]. simpl.
      unfold set_cache_in, set_mainCache, set_lru. simpl. by rewrite <- app_assoc.
    + done.
    + intros k' Hk'. simpl.
      destruct (String.eqb_spec k' k) as [->|Hne]; [done|].
      apply Hfresh. simpl. apply elem_of_cons. by right.
    + simpl. simpl length in Hroom. lia.
Qed.

(** An insertion [c.add(k, v)] into a well-formed cache whose evicted
    entries hold non-nil Values: one [Dispose] per evicted entry, in the
    order of eviction, nothing else disposed, no evicted entry still
    resident, at most one eviction, a normal return, and [nevict] grown by
    the number of evicted entries (int64 arithmetic). *)
Lemma cache_add_evicted_spec (k : string) (v : Value) (s : GS)
    (ev : list (string * Value)) (l' : lruCache) :
  keys_nodup (ll (lru (mainCache (grp s)))) ->
  in_int64 (nevict (mainCache (grp s))) ->
  lru_Add k v (lru (mainCache (grp s))) = (ev, l') ->
  Forall (fun e => snd e <> None) ev ->
  let '(r, s') := cache_add k v s in
  r = Ret tt
  /\ lru (mainCache (grp s')) = l'
  /\ (length ev <= 1)%nat
  /\ trace s' = trace s ++ map EvDispose (values_of ev)
  /\ length (values_of ev) = length ev
  /\ nevict (mainCache (grp s')) = wrap64 (nevict (mainCache (grp s)) + Z.of_nat (length ev))
  /\ (forall e, In e ev -> ~ In e (ll (lru (mainCache (grp s'))))).
Proof.
  intros Hnd Hin Hadd Hnn.
  destruct (lru_Add_keys k v (lru (mainCache (grp s))) Hnd) as (_ & Hout & Hlen & _).
  rewrite Hadd in Hout, Hlen. simpl in Hout, Hlen.
  rewrite cache_add_unfold, Hadd.
  rewrite run_onEvicted_nonnil by (try done).
  simpl. split; [done|]. split; [done|]. split; [done|]. split; [done|].
  split; [|split; [done|exact Hout]].
  clear -Hnn. induction ev as [|[k0 v0] ev IH]; [done|].
  inversion Hnn as [|? ? Hv Hnn']; subst. destruct v0 as [o|]; [|done].
  simpl. f_equal. by apply IH.
Qed.

Lemma last_In {A} (l : list A) (y : A) : last l = Some y -> In y l.
Proof.
  destruct l as [|x l]; [done|]. intros H.
  destruct (last_cons_Some x l) as (y' & Hy' & Hin). congruence.
Qed.

(** A cache of capacity [N] (built by [NewGroup]), given [N+1] distinct
    keys with non-nil Values, ends with exactly [N] resident entries, one
    eviction counted and exactly one [Dispose], that of an inserted entry
    which is no longer resident. *)
Lemma cache_capacity_plus_one_spec (N : nat) (kvs : list (string * Value))
    (nm : string) (gt : Getter) :
  length kvs = S N -> NoDup (map fst kvs) -> Forall (fun e => snd e <> None) kvs ->
  let '(r, s) := run_adds kvs {| grp := newGroupValue nm (Z.of_nat N) gt; trace := [] |} in
  r = Ret tt
  /\ cache_items (mainCache (grp s)) = Z.of_nat N
  /\ nevict (mainCache (grp s)) = 1
  /\ exists k0 o, In (k0, Some o) kvs /\ trace s = [EvDispose o]
                  /\ lookup_entry k0 (ll (lru (mainCache (grp s)))) = None.
Proof.
  intros Hlen Hnd Hnn.
  destruct (exists_last (l := kvs)) as (pre & [k v] & ->); [by destruct kvs|].
  rewrite length_app in Hlen. simpl in Hlen. assert (Hpre : length pre = N) by lia. clear Hlen.
  rewrite map_app in Hnd. apply NoDup_app in Hnd as (Hndpre & Hdisj & _).
  assert (Hk : k ∉ map fst pre).
  { intros Hin. apply (Hdisj k Hin). simpl. by apply list_elem_of_singleton. }
  rewrite run_adds_app. unfold st_bind at 1.
  rewrite run_adds_room; simpl; [| done | done | lia].
  unfold st_bind. rewrite cache_add_unfold. simpl.
  rewrite app_nil_r.
  destruct (lru_Add_fresh_full k v {| MaxEntries := Z.of_nat N; ll := rev pre |})
    as (e & He & Hadd & Hlen'); simpl.
  { apply lookup_entry_None_notin. rewrite map_rev, rev_alt. change (k ∉ reverse (map fst pre)).
    rewrite elem_of_reverse. done. }
  { rewrite length_rev. lia. }
  rewrite Hadd.
  assert (Hein : In e (pre ++ [(k, v)])).
  { apply last_In in He. destruct He as [<-|He]; [apply in_or_app; right; by left|].
    apply in_or_app; left. by apply in_rev. }
  destruct e as [k0 [o|]].
  2: { exfalso. rewrite Forall_forall in Hnn.
        apply (Hnn _ (proj2 (list_elem_of_In _ _) Hein)). done. }
  rewrite run_onEvicted_nonnil; [| by constructor | simpl; unfold in_int64; lia].
  simpl. split; [done|]. split.
  { unfold cache_items, itemsLocked, lru_Len. simpl in Hlen' |- *. rewrite Hlen', length_rev. lia. }
  split; [done|].
  exists k0, o. split; [done|]. split; [done|].
  apply lookup_entry_None_notin.
  pose proof (removelast_app_last _ _ _ He) as Happ. simpl in Happ.
  assert (Hnd2 : NoDup (map fst ((k, v) :: rev pre))).
  { simpl. rewrite map_rev, rev_alt. change (NoDup (k :: reverse (map fst pre))).
    constructor; [rewrite elem_of_reverse; done|].
    by rewrite reverse_Permutation. }
  rewrite Happ, map_app in Hnd2. apply NoDup_app in Hnd2 as (_ & Hdisj2 & _).
  intros Hin. apply (Hdisj2 k0 Hin). simpl. by apply list_elem_of_singleton.
Qed.

(** ** The three paths of [Group.Get] *)

Lemma Group_Get_hit_shape (k : string) (s : GS) (v : Value) :
  lookup_entry k (ll (lru (mainCache (grp s)))) = Some v ->
  Group_Get k s =
    match v with
    | Some o => (Ret (Some o, None), hit_state (snd (lru_Get k (lru (mainCache (grp s))))) s)
    | None => (Panic nil_interface_msg,
               set_cache_in (set_lru (snd (lru_Get k (lru (mainCache (grp s)))))
                                     (mainCache (grp (bump_get s)))) (bump_get s))
    end.
Proof.
  intros Hl. destruct s as [[nm gt [[m l] h g e] [sg sh]] tr]. simpl in Hl.
  unfold Group_Get, cache_get, upd_cache, upd_Stats, st_bind, st_get, st_ret, st_modify.
  simpl. unfold lru_Get. simpl. rewrite Hl.
  destruct v as [o|]; simpl; reflexivity.
Qed.

Lemma Group_Get_miss_shape (k : string) (s : GS) :
  lookup_entry k (ll (lru (mainCache (grp s)))) = None ->
  Group_Get k s =
    let s1 := {| grp := grp (bump_get s); trace := trace s ++ [EvGetter k] |} in
    match getter (grp s) k with
    | (v, None) => st_bind (cache_add k v) (fun _ => st_ret (v, None)) s1
    | (v, Some e) => (Ret (v, Some e), s1)
    end.
Proof.
  intros Hl. destruct s as [[nm gt [[m l] h g e] [sg sh]] tr]. simpl in Hl.
  unfold Group_Get, cache_get, call_getter, emit, upd_cache, upd_Stats, st_bind, st_get,
    st_ret, st_modify.
  simpl. unfold lru_Get. simpl. rewrite Hl. simpl.
  destruct (gt k) as [v [err|]]; reflexivity.
Qed.

(** ** Claims on [Group.Get] *)

(** Claim C2.  When the cache has no entry for [k] and the Getter fails
    for [k], [Get(k)] returns the Getter's result (its error verbatim),
    leaves the bounded cache as it was (so no entry for [k]), increments
    both gets counters and neither hits counter, and runs only the Getter. *)
Theorem Group_Get_load_error (k : string) (s : GS) (v : Value) (e : string) :
  lookup_entry k (ll (lru (mainCache (grp s)))) = None ->
  getter (grp s) k = (v, Some e) ->
  let '(r, s') := Group_Get k s in
  r = Ret (v, Some e)
  /\ lru (mainCache (grp s')) = lru (mainCache (grp s))
  /\ lookup_entry k (ll (lru (mainCache (grp s')))) = None
  /\ nget (mainCache (grp s')) = add64 (nget (mainCache (grp s))) 1
  /\ Gets (g_Stats (grp s')) = add64 (Gets (g_Stats (grp s))) 1
  /\ nhit (mainCache (grp s')) = nhit (mainCache (grp s))
  /\ CacheHits (g_Stats (grp s')) = CacheHits (g_Stats (grp s))
  /\ nevict (mainCache (grp s')) = nevict (mainCache (grp s))
  /\ trace s' = trace s ++ [EvGetter k].
Proof.
  intros Hl Hg. rewrite Group_Get_miss_shape by done. rewrite Hg. simpl.
  repeat split; done.
Qed.

Lemma Group_Get_load_error_witness :
  lookup_entry "x" (ll (lru (mainCache (grp (demo_group 2))))) = None
  /\ getter (grp (demo_group 2)) "x" = (None, Some "not found")
  /\ let '(r, s') := Group_Get "x" (demo_group 2) in
     r = Ret (None, Some "not found")
     /\ lru (mainCache (grp s')) = lru (mainCache (grp (demo_group 2)))
     /\ lookup_entry "x" (ll (lru (mainCache (grp s')))) = None
     /\ nget (mainCache (grp s')) = add64 (nget (mainCache (grp (demo_group 2)))) 1
     /\ Gets (g_Stats (grp s')) = add64 (Gets (g_Stats (grp (demo_group 2)))) 1
     /\ nhit (mainCache (grp s')) = nhit (mainCache (grp (demo_group 2)))
     /\ CacheHits (g_Stats (grp s')) = CacheHits (g_Stats (grp (demo_group 2)))
     /\ nevict (mainCache (grp s')) = nevict (mainCache (grp (demo_group 2)))
     /\ trace s' = trace (demo_group 2) ++ [EvGetter "x"].
Proof.
  split; [reflexivity|]. split; [reflexivity|].
  apply Group_Get_load_error; reflexivity.
Defined.

(** The load path of [Get(k)] when the Getter succeeds. *)
Lemma Group_Get_load_ok_spec (k : string) (s : GS) (v : Value)
    (ev : list (string * Value)) (l' : lruCache) :
  keys_nodup (ll (lru (mainCache (grp s)))) ->
  in_int64 (nevict (mainCache (grp s))) ->
  lookup_entry k (ll (lru (mainCache (grp s)))) = None ->
  getter (grp s) k = (v, None) ->
  lru_Add k v (lru (mainCache (grp s))) = (ev, l') ->
  Forall (fun e => snd e <> None) ev ->
  let '(r, s') := Group_Get k s in
  r = Ret (v, None)
  /\ lru (mainCache (grp s')) = l'
  /\ trace s' = trace s ++ EvGetter k :: map EvDispose (values_of ev)
  /\ (1 <= MaxEntries (lru (mainCache (grp s))) ->
      Z.of_nat (length (ll (lru (mainCache (grp s))))) <= MaxEntries (lru (mainCache (grp s))) ->
      lookup_entry k (ll (lru (mainCache (grp s')))) = Some v).
Proof.
  intros Hnd Hin Hl Hg Hadd Hnn.
  pose proof (lru_Add_resident k v (lru (mainCache (grp s)))) as Hres.
  rewrite Hadd in Hres. simpl in Hres.
  rewrite Group_Get_miss_shape by done. rewrite Hg. cbv zeta.
  unfold st_bind at 1. rewrite cache_add_unfold.
  destruct s as [[nm gt [[m l] h g e] [sg sh]] tr]. simpl in *.
  rewrite Hadd. rewrite run_onEvicted_nonnil by (simpl; done).
  simpl. split; [done|]. split; [done|]. split; [by rewrite <- app_assoc|].
  exact Hres.
Qed.

(** Claim C3 (amended).  When the cache has no entry for [k] and the
    Getter succeeds with [v], and the entry that inserting [v] evicts (if
    any) holds a non-nil Value, [Get(k)] invokes the Getter, performs
    [add(k, v)] on the cache (the bounded cache becomes the result of
    [Add(k, v)], and [k] maps to [v] whenever the capacity is at least 1),
    and returns [v] with a nil error. *)
Theorem Group_Get_load_ok (k : string) (s : GS) (v : Value)
    (ev : list (string * Value)) (l' : lruCache) :
  keys_nodup (ll (lru (mainCache (grp s)))) ->
  in_int64 (nevict (mainCache (grp s))) ->
  lookup_entry k (ll (lru (mainCache (grp s)))) = None ->
  getter (grp s) k = (v, None) ->
  lru_Add k v (lru (mainCache (grp s))) = (ev, l') ->
  Forall (fun e => snd e <> None) ev ->
  let '(r, s') := Group_Get k s in
  r = Ret (v, None)
  /\ lru (mainCache (grp s')) = l'
  /\ trace s' = trace s ++ EvGetter k :: map EvDispose (values_of ev)
  /\ (1 <= MaxEntries (lru (mainCache (grp s))) ->
      Z.of_nat (length (ll (lru (mainCache (grp s))))) <= MaxEntries (lru (mainCache (grp s))) ->
      lookup_entry k (ll (lru (mainCache (grp s')))) = Some v).
Proof. exact (Group_Get_load_ok_spec k s v ev l').
Qed.

Lemma Group_Get_load_ok_witness :
  let s := demo_group 2 in
  let l' := {| MaxEntries := 2; ll := [("a", Some (obj 1))] |} in
  keys_nodup (ll (lru (mainCache (grp s))))
  /\ in_int64 (nevict (mainCache (grp s)))
  /\ lookup_entry "a" (ll (lru (mainCache (grp s)))) = None
  /\ getter (grp s) "a" = (Some (obj 1), None)
  /\ lru_Add "a" (Some (obj 1)) (lru (mainCache (grp s))) = ([], l')
  /\ Forall (fun e => snd e <> None) ([] : list (string * Value))
  /\ let '(r, s') := Group_Get "a" s in
     r = Ret (Some (obj 1), None)
     /\ lru (mainCache (grp s')) = l'
     /\ trace s' = trace s ++ EvGetter "a" :: map EvDispose (values_of [])
     /\ (1 <= MaxEntries (lru (mainCache (grp s))) ->
         Z.of_nat (length (ll (lru (mainCache (grp s))))) <= MaxEntries (lru (mainCache (grp s))) ->
         lookup_entry "a" (ll (lru (mainCache (grp s')))) = Some (Some (obj 1))).
Proof.
  cbv zeta.
  assert (H1 : keys_nodup (ll (lru (mainCache (grp (demo_group 2)))))) by (simpl; constructor).
  assert (H2 : in_int64 (nevict (mainCache (grp (demo_group 2))))) by (unfold in_int64; simpl; lia).
  assert (H3 : lookup_entry "a" (ll (lru (mainCache (grp (demo_group 2))))) = None) by reflexivity.
  assert (H4 : getter (grp (demo_group 2)) "a" = (Some (obj 1), None)) by reflexivity.
  assert (H5 : lru_Add "a" (Some (obj 1)) (lru (mainCache (grp (demo_group 2))))
               = ([], {| MaxEntries := 2; ll := [("a", Some (obj 1))] |})) by reflexivity.
  assert (H6 : Forall (fun e => snd e <> None) ([] : list (string * Value))) by constructor.
  split; [exact H1|]. split; [exact H2|]. split; [exact H3|]. split; [exact H4|].
  split; [exact H5|]. split; [exact H6|].
  exact (Group_Get_load_ok "a" (demo_group 2) (Some (obj 1)) [] _ H1 H2 H3 H4 H5 H6).
Defined.

(** Claim C3, counterexample.  With capacity 1 and the nil Value loaded
    for "n", [Get("a")] invokes the Getter, which succeeds, but the
    insertion evicts the nil entry: the eviction hook's type assertion
    panics and [Get("a")] returns neither the Value nor an error. *)
Lemma Group_Get_load_nil_victim_cex :
  let '(r, s') := Group_Get "a" (run_gets ["n"] (demo_group 1)) in
  r = Panic nil_interface_msg
  /\ trace s' = [EvGetter "n"; EvGetter "a"].
Proof. vm_compute. split; reflexivity. Qed.

(** Claim C4 (amended).  When [k] is resident with a non-nil Value [o]
    (for instance after a successful load, before its eviction), [Get(k)]
    returns [o] with a nil error, increments both hits counters (and both
    gets counters), and does not invoke the Getter: no callback runs. *)
Theorem Group_Get_hit (k : string) (s : GS) (o : ValObj) :
  lookup_entry k (ll (lru (mainCache (grp s)))) = Some (Some o) ->
  let '(r, s') := Group_Get k s in
  r = Ret (Some o, None)
  /\ trace s' = trace s
  /\ nhit (mainCache (grp s')) = add64 (nhit (mainCache (grp s))) 1
  /\ CacheHits (g_Stats (grp s')) = add64 (CacheHits (g_Stats (grp s))) 1
  /\ nget (mainCache (grp s')) = add64 (nget (mainCache (grp s))) 1
  /\ Gets (g_Stats (grp s')) = add64 (Gets (g_Stats (grp s))) 1.
Proof.
  intros Hl. rewrite (Group_Get_hit_shape k s (Some o) Hl). simpl.
  repeat split; done.
Qed.

Lemma Group_Get_hit_witness :
  let s := run_gets ["a"] (demo_group 2) in
  lookup_entry "a" (ll (lru (mainCache (grp s)))) = Some (Some (obj 1))
  /\ let '(r, s') := Group_Get "a" s in
     r = Ret (Some (obj 1), None)
     /\ trace s' = trace s
     /\ nhit (mainCache (grp s')) = add64 (nhit (mainCache (grp s))) 1
     /\ CacheHits (g_Stats (grp s')) = add64 (CacheHits (g_Stats (grp s))) 1
     /\ nget (mainCache (grp s')) = add64 (nget (mainCache (grp s))) 1
     /\ Gets (g_Stats (grp s')) = add64 (Gets (g_Stats (grp s))) 1.
Proof.
  cbv zeta.
  assert (H : lookup_entry "a" (ll (lru (mainCache (grp (run_gets ["a"] (demo_group 2))))))
              = Some (Some (obj 1))) by (vm_compute; reflexivity).
  split; [exact H|]. exact (Group_Get_hit _ _ _ H).
Defined.

(** Claim C4, counterexample.  A successful load of the nil Value for "n"
    caches it; the next [Get("n")] is a hit whose type assertion panics
    instead of returning the Value. *)
Lemma Group_Get_hit_nil_cex :
  lookup_entry "n" (ll (lru (mainCache (grp (run_gets ["n"] (demo_group 2)))))) = Some None
  /\ fst (Group_Get "n" (run_gets ["n"] (demo_group 2))) = Panic nil_interface_msg.
Proof. split; vm_compute; reflexivity. Qed.

(** Claim C10.  A [Get(k)] that hits (whether it returns or panics on a
    nil Value) changes only the counters and the recency order: every key
    maps to the same Value as before, the number of entries and the
    capacity stay, nothing is evicted, no callback runs (no Dispose, no
    Getter), and the group's name and Getter are unchanged. *)
Theorem Group_Get_hit_frame (k : string) (s : GS) (v : Value) :
  keys_nodup (ll (lru (mainCache (grp s)))) ->
  lookup_entry k (ll (lru (mainCache (grp s)))) = Some v ->
  let '(r, s') := Group_Get k s in
  (forall k', lookup_entry k' (ll (lru (mainCache (grp s'))))
              = lookup_entry k' (ll (lru (mainCache (grp s)))))
  /\ lru_Len (lru (mainCache (grp s'))) = lru_Len (lru (mainCache (grp s)))
  /\ MaxEntries (lru (mainCache (grp s'))) = MaxEntries (lru (mainCache (grp s)))
  /\ nevict (mainCache (grp s')) = nevict (mainCache (grp s))
  /\ trace s' = trace s
  /\ name (grp s') = name (grp s)
  /\ getter (grp s') = getter (grp s).
Proof.
  intros Hnd Hl.
  destruct (lru_Get_hit k v (lru (mainCache (grp s))) Hnd Hl) as (_ & _ & Hlk & Hlen & Hmax).
  rewrite (Group_Get_hit_shape k s v Hl).
  destruct v as [o|]; simpl; repeat split; done.
Qed.

Lemma Group_Get_hit_frame_witness :
  let s := run_gets ["a"; "n"] (demo_group 2) in
  keys_nodup (ll (lru (mainCache (grp s))))
  /\ lookup_entry "n" (ll (lru (mainCache (grp s)))) = Some None
  /\ let '(r, s') := Group_Get "n" s in
     (forall k', lookup_entry k' (ll (lru (mainCache (grp s'))))
                 = lookup_entry k' (ll (lru (mainCache (grp s)))))
     /\ lru_Len (lru (mainCache (grp s'))) = lru_Len (lru (mainCache (grp s)))
     /\ MaxEntries (lru (mainCache (grp s'))) = MaxEntries (lru (mainCache (grp s)))
     /\ nevict (mainCache (grp s')) = nevict (mainCache (grp s))
     /\ trace s' = trace s
     /\ name (grp s') = name (grp s)
     /\ getter (grp s') = getter (grp s).
Proof.
  cbv zeta.
  assert (H1 : keys_nodup (ll (lru (mainCache (grp (run_gets ["a"; "n"] (demo_group 2)))))))
    by (apply (bool_decide_unpack _); vm_compute; exact I).
  assert (H2 : lookup_entry "n" (ll (lru (mainCache (grp (run_gets ["a"; "n"] (demo_group 2))))))
               = Some None) by (vm_compute; reflexivity).
  split; [exact H1|]. split; [exact H2|]. exact (Group_Get_hit_frame _ _ _ H1 H2).
Defined.

(** Claim C8.  When the entry evicted by an insertion holds a Value whose
    [Dispose] fails, the failure reaches neither the caller of [add] nor
    the caller of the [Get] that loaded the new Value: both return
    normally, and [nevict] is incremented as for a successful Dispose. *)
Theorem dispose_error_not_propagated (k : string) (s : GS) (v : Value)
    (k0 : string) (o : ValObj) (err : string) (l' : lruCache) :
  keys_nodup (ll (lru (mainCache (grp s)))) ->
  in_int64 (nevict (mainCache (grp s))) ->
  lookup_entry k (ll (lru (mainCache (grp s)))) = None ->
  getter (grp s) k = (v, None) ->
  lru_Add k v (lru (mainCache (grp s))) = ([(k0, Some o)], l') ->
  vdispose o = Some err ->
  (let '(r, s') := cache_add k v s in
   r = Ret tt
   /\ nevict (mainCache (grp s')) = add64 (nevict (mainCache (grp s))) 1
   /\ trace s' = trace s ++ [EvDispose o])
  /\ (let '(r, s') := Group_Get k s in
      r = Ret (v, None)
      /\ nevict (mainCache (grp s')) = add64 (nevict (mainCache (grp s))) 1
      /\ trace s' = trace s ++ [EvGetter k; EvDispose o]).
Proof.
  intros Hnd Hin Hl Hg Hadd _.
  assert (Hnn : Forall (fun e => snd e <> None) [(k0, Some o)]) by (constructor; [done|constructor]).
  split.
  - pose proof (cache_add_evicted_spec k v s _ _ Hnd Hin Hadd Hnn) as H.
    destruct (cache_add k v s) as [r s']. simpl in H.
    destruct H as (Hr & _ & _ & Htr & _ & Hev & _). split; [done|]. split; [exact Hev|exact Htr].
  - pose proof (Group_Get_load_ok_spec k s v _ _ Hnd Hin Hl Hg Hadd Hnn) as H.
    rewrite Group_Get_miss_shape in H |- * by done. rewrite Hg in H |- *. cbv zeta in H |- *.
    unfold st_bind at 1 in H. unfold st_bind at 1.
    rewrite cache_add_unfold in H |- *. simpl in H |- *. rewrite Hadd in H |- *.
    rewrite run_onEvicted_nonnil in H |- * by (simpl; done).
    simpl in H |- *. destruct H as (Hr & _ & Htr & _).
    split; [done|]. split; [done|]. rewrite Htr. done.
Qed.

Lemma dispose_error_not_propagated_witness :
  let s := run_gets ["bad"] (demo_group 1) in
  keys_nodup (ll (lru (mainCache (grp s))))
  /\ in_int64 (nevict (mainCache (grp s)))
  /\ lookup_entry "a" (ll (lru (mainCache (grp s)))) = None
  /\ getter (grp s) "a" = (Some (obj 1), None)
  /\ lru_Add "a" (Some (obj 1)) (lru (mainCache (grp s)))
     = ([("bad", Some (obj_failing 9))], {| MaxEntries := 1; ll := [("a", Some (obj 1))] |})
  /\ vdispose (obj_failing 9) = Some "close failed"
  /\ (let '(r, s') := cache_add "a" (Some (obj 1)) s in
      r = Ret tt
      /\ nevict (mainCache (grp s')) = add64 (nevict (mainCache (grp s))) 1
      /\ trace s' = trace s ++ [EvDispose (obj_failing 9)])
  /\ (let '(r, s') := Group_Get "a" s in
      r = Ret (Some (obj 1), None)
      /\ nevict (mainCache (grp s')) = add64 (nevict (mainCache (grp s))) 1
      /\ trace s' = trace s ++ [EvGetter "a"; EvDispose (obj_failing 9)]).
Proof.
  cbv zeta.
  assert (H1 : keys_nodup (ll (lru (mainCache (grp (run_gets ["bad"] (demo_group 1)))))))
    by (apply (bool_decide_unpack _); vm_compute; exact I).
  assert (H2 : in_int64 (nevict (mainCache (grp (run_gets ["bad"] (demo_group 1))))))
    by (split; vm_compute; [intros Hc; discriminate Hc | reflexivity]).
  assert (H3 : lookup_entry "a" (ll (lru (mainCache (grp (run_gets ["bad"] (demo_group 1))))))
               = None) by (vm_compute; reflexivity).
  assert (H4 : getter (grp (run_gets ["bad"] (demo_group 1))) "a" = (Some (obj 1), None))
    by (vm_compute; reflexivity).
  assert (H5 : lru_Add "a" (Some (obj 1)) (lru (mainCache (grp (run_gets ["bad"] (demo_group 1)))))
     = ([("bad", Some (obj_failing 9))], {| MaxEntries := 1; ll := [("a", Some (obj 1))] |}))
    by (vm_compute; reflexivity).
  assert (H6 : vdispose (obj_failing 9) = Some "close failed") by reflexivity.
  split; [exact H1|]. split; [exact H2|]. split; [exact H3|]. split; [exact H4|].
  split; [exact H5|]. split; [exact H6|].
  exact (dispose_error_not_propagated _ _ _ _ _ _ _ H1 H2 H3 H4 H5 H6).
Defined.

(** ** Claim on eviction accounting *)

(** Claim C1 (amended).  (1) For an insertion [c.add(k, v)] into a
    well-formed cache, when every entry the bounded cache evicts holds a
    non-nil Value: the eviction hook invokes [Dispose] exactly once per
    evicted entry (one [EvDispose] each, nothing else disposed), no evicted
    entry is still resident, the call returns normally and [nevict] grows
    by exactly the number of evicted entries (int64 arithmetic).
    (2) For a cache of capacity [N], inserting [N+1] distinct keys with
    non-nil Values leaves exactly [N] resident entries and triggers
    exactly one eviction and one [Dispose]. *)
Theorem cache_eviction_accounting :
  (forall (k : string) (v : Value) (s : GS) (ev : list (string * Value)) (l' : lruCache),
     keys_nodup (ll (lru (mainCache (grp s)))) ->
     in_int64 (nevict (mainCache (grp s))) ->
     lru_Add k v (lru (mainCache (grp s))) = (ev, l') ->
     Forall (fun e => snd e <> None) ev ->
     let '(r, s') := cache_add k v s in
     r = Ret tt
     /\ lru (mainCache (grp s')) = l'
     /\ (length ev <= 1)%nat
     /\ trace s' = trace s ++ map EvDispose (values_of ev)
     /\ length (values_of ev) = length ev
     /\ nevict (mainCache (grp s')) = wrap64 (nevict (mainCache (grp s)) + Z.of_nat (length ev))
     /\ (forall e, In e ev -> ~ In e (ll (lru (mainCache (grp s'))))))
  /\ (forall (N : nat) (kvs : list (string * Value)) (nm : string) (gt : Getter),
     length kvs = S N -> NoDup (map fst kvs) -> Forall (fun e => snd e <> None) kvs ->
     let '(r, s) := run_adds kvs {| grp := newGroupValue nm (Z.of_nat N) gt; trace := [] |} in
     r = Ret tt
     /\ cache_items (mainCache (grp s)) = Z.of_nat N
     /\ nevict (mainCache (grp s)) = 1
     /\ exists k0 o, In (k0, Some o) kvs /\ trace s = [EvDispose o]
                     /\ lookup_entry k0 (ll (lru (mainCache (grp s)))) = None).
Proof.
  split.
  - exact cache_add_evicted_spec.
  - exact cache_capacity_plus_one_spec.
Qed.

Lemma cache_eviction_accounting_witness :
  (let s := run_gets ["a"] (demo_group 1) in
   keys_nodup (ll (lru (mainCache (grp s))))
   /\ in_int64 (nevict (mainCache (grp s)))
   /\ lru_Add "b" (Some (obj 2)) (lru (mainCache (grp s)))
      = ([("a", Some (obj 1))], {| MaxEntries := 1; ll := [("b", Some (obj 2))] |})
   /\ Forall (fun e => snd e <> None) [("a", Some (obj 1))]
   /\ let '(r, s') := cache_add "b" (Some (obj 2)) s in
      r = Ret tt
      /\ lru (mainCache (grp s')) = {| MaxEntries := 1; ll := [("b", Some (obj 2))] |}
      /\ (length [("a", Some (obj 1))] <= 1)%nat
      /\ trace s' = trace s ++ map EvDispose (values_of [("a", Some (obj 1))])
      /\ length (values_of [("a", Some (obj 1))]) = length [("a", Some (obj 1))]
      /\ nevict (mainCache (grp s'))
         = wrap64 (nevict (mainCache (grp s)) + Z.of_nat (length [("a", Some (obj 1))]))
      /\ (forall e, In e [("a", Some (obj 1))] -> ~ In e (ll (lru (mainCache (grp s'))))))
  /\ (let kvs := [("a", Some (obj 1)); ("b", Some (obj 2)); ("c", Some (obj 3))] in
      length kvs = S 2 /\ NoDup (map fst kvs) /\ Forall (fun e => snd e <> None) kvs
      /\ let '(r, s) := run_adds kvs {| grp := newGroupValue "demo" (Z.of_nat 2) demo_getter;
                                        trace := [] |} in
         r = Ret tt
         /\ cache_items (mainCache (grp s)) = Z.of_nat 2
         /\ nevict (mainCache (grp s)) = 1
         /\ exists k0 o, In (k0, Some o) kvs /\ trace s = [EvDispose o]
                         /\ lookup_entry k0 (ll (lru (mainCache (grp s)))) = None).
Proof.
  cbv zeta. split.
  - assert (H1 : keys_nodup (ll (lru (mainCache (grp (run_gets ["a"] (demo_group 1)))))))
      by (apply (bool_decide_unpack _); vm_compute; exact I).
    assert (H2 : in_int64 (nevict (mainCache (grp (run_gets ["a"] (demo_group 1))))))
      by (split; vm_compute; [intros Hc; discriminate Hc | reflexivity]).
    assert (H3 : lru_Add "b" (Some (obj 2)) (lru (mainCache (grp (run_gets ["a"] (demo_group 1)))))
      = ([("a", Some (obj 1))], {| MaxEntries := 1; ll := [("b", Some (obj 2))] |}))
      by (vm_compute; reflexivity).
    assert (H4 : Forall (fun e : string * Value => snd e <> None) [("a", Some (obj 1))])
      by (repeat constructor; discriminate).
    split; [exact H1|]. split; [exact H2|]. split; [exact H3|]. split; [exact H4|].
    exact (proj1 cache_eviction_accounting _ _ _ _ _ H1 H2 H3 H4).
  - assert (H1 : length [("a", Some (obj 1)); ("b", Some (obj 2)); ("c", Some (obj 3))] = S 2)
      by reflexivity.
    assert (H2 : NoDup (map fst [("a", Some (obj 1)); ("b", Some (obj 2)); ("c", Some (obj 3))]))
      by (apply (bool_decide_unpack _); vm_compute; exact I).
    assert (H3 : Forall (fun e : string * Value => snd e <> None)
                   [("a", Some (obj 1)); ("b", Some (obj 2)); ("c", Some (obj 3))])
      by (repeat constructor; discriminate).
    split; [exact H1|]. split; [exact H2|]. split; [exact H3|].
    exact (proj2 cache_eviction_accounting _ _ "demo" demo_getter H1 H2 H3).
Defined.

(** Claim C1, counterexample.  An evicted entry holding the nil Value has
    no [Dispose] invoked: the hook's type assertion panics, [add] does not
    return, and [nevict] is not incremented although the entry is gone. *)
Lemma cache_add_nil_evicted_cex :
  let '(r, s) := run_adds [("a", None); ("b", Some (obj 2))] (demo_group 1) in
  r = Panic nil_interface_msg
  /\ lookup_entry "a" (ll (lru (mainCache (grp s)))) = None
  /\ trace s = []
  /\ nevict (mainCache (grp s)) = 0.
Proof. vm_compute. repeat split. Qed.

(** ** Counters *)

Lemma lru_Add_evicted_le1 (k : string) (v : Value) (c : lruCache) :
  (length (fst (lru_Add k v c)) <= 1)%nat.
Proof.
  unfold lru_Add. destruct (lookup_entry k (ll c)) as [old|].
  - destruct (decide (old = v)); simpl; lia.
  - destruct (Z.ltb _ _); simpl; [|lia].
    destruct (last _); simpl; lia.
Qed.

(** The eviction hook over at most one entry changes [nevict] by at most
    one and touches no other counter, whether it returns or panics. *)
Lemma run_onEvicted_counters (ev : list (string * Value)) (s : GS) :
  (length ev <= 1)%nat ->
  let s' := snd (run_onEvicted ev s) in
  nget (mainCache (grp s')) = nget (mainCache (grp s))
  /\ nhit (mainCache (grp s')) = nhit (mainCache (grp s))
  /\ g_Stats (grp s') = g_Stats (grp s)
  /\ (nevict (mainCache (grp s')) = nevict (mainCache (grp s))
      \/ nevict (mainCache (grp s')) = add64 (nevict (mainCache (grp s))) 1).
Proof.
  intros Hlen. destruct ev as [|[k0 [o|]] [|e ev]]; simpl in Hlen; try lia; simpl.
  - unfold st_ret. simpl. auto.
  - unfold cache_onEvicted, assert_Value, Dispose, emit, upd_cache, st_bind, st_ret,
      st_modify. simpl. auto.
  - unfold cache_onEvicted, assert_Value, st_bind, st_panic. simpl. auto.
Qed.

Lemma cache_add_counters (k : string) (v : Value) (s : GS) :
  let s' := snd (cache_add k v s) in
  nget (mainCache (grp s')) = nget (mainCache (grp s))
  /\ nhit (mainCache (grp s')) = nhit (mainCache (grp s))
  /\ g_Stats (grp s') = g_Stats (grp s)
  /\ (nevict (mainCache (grp s')) = nevict (mainCache (grp s))
      \/ nevict (mainCache (grp s')) = add64 (nevict (mainCache (grp s))) 1).
Proof.
  rewrite cache_add_unfold.
  pose proof (lru_Add_evicted_le1 k v (lru (mainCache (grp s)))) as Hle.
  destruct (lru_Add k v (lru (mainCache (grp s)))) as [ev l']. simpl in Hle.
  pose proof (run_onEvicted_counters ev (set_cache_in (set_lru l' (mainCache (grp s))) s) Hle)
    as H.
  destruct s as [[nm gt [[m l] h g e] st] tr]. exact H.
Qed.

Lemma snd_bind_ret {S A} (m : ST S unit) (a : A) (s : S) :
  snd (st_bind m (fun _ => st_ret a) s) = snd (m s).
Proof. unfold st_bind. destruct (m s) as [[[]|msg] s']; reflexivity. Qed.

(** Every call [g.Get(k)], whether it returns or panics: both gets counters
    grow by one, each hits counter by at most one and the two together,
    [nevict] by at most one. *)
Lemma Group_Get_counters (k : string) (s : GS) :
  let s' := snd (Group_Get k s) in
  nget (mainCache (grp s')) = add64 (nget (mainCache (grp s))) 1
  /\ Gets (g_Stats (grp s')) = add64 (Gets (g_Stats (grp s))) 1
  /\ ((nhit (mainCache (grp s')) = nhit (mainCache (grp s))
       /\ CacheHits (g_Stats (grp s')) = CacheHits (g_Stats (grp s)))
      \/ (nhit (mainCache (grp s')) = add64 (nhit (mainCache (grp s))) 1
          /\ CacheHits (g_Stats (grp s')) = add64 (CacheHits (g_Stats (grp s))) 1))
  /\ (nevict (mainCache (grp s')) = nevict (mainCache (grp s))
      \/ nevict (mainCache (grp s')) = add64 (nevict (mainCache (grp s))) 1).
Proof.
  destruct (lookup_entry k (ll (lru (mainCache (grp s))))) as [v|] eqn:Hl.
  - rewrite (Group_Get_hit_shape k s v Hl).
    destruct v as [o|]; simpl; split; try done; split; try done; split; auto.
  - rewrite (Group_Get_miss_shape k s Hl). cbv zeta.
    destruct (getter (grp s) k) as [v [e|]].
    + simpl. split; [done|]. split; [done|]. split; auto.
    + set (s1 := {| grp := grp (bump_get s); trace := trace s ++ [EvGetter k] |}).
      pose proof (cache_add_counters k v s1) as (H1 & H2 & H3 & H4).
      rewrite snd_bind_ret. rewrite H1, H2, H3. simpl in H4 |- *.
      split; [done|]. split; [done|]. split; [auto|exact H4].
Qed.

Lemma run_gets_app (ks1 ks2 : list string) (s : GS) :
  run_gets (ks1 ++ ks2) s = run_gets ks2 (run_gets ks1 s).
Proof. revert s. induction ks1 as [|k ks1 IH]; intros s; simpl; auto. Qed.

Lemma run_gets_parity_step (ks : list string) (s : GS) :
  Gets (g_Stats (grp s)) = nget (mainCache (grp s)) ->
  CacheHits (g_Stats (grp s)) = nhit (mainCache (grp s)) ->
  Gets (g_Stats (grp (run_gets ks s))) = nget (mainCache (grp (run_gets ks s)))
  /\ CacheHits (g_Stats (grp (run_gets ks s))) = nhit (mainCache (grp (run_gets ks s))).
Proof.
  revert s. induction ks as [|k ks IH]; intros s Hg Hh; simpl; [done|].
  apply IH; destruct (Group_Get_counters k s) as (H1 & H2 & H3 & _).
  - rewrite H1, H2, Hg. done.
  - destruct H3 as [[-> ->]|[-> ->]]; rewrite Hh; done.
Qed.

(** Claim C9.  After any sequence of sequential [Get] calls on a group
    created by [NewGroup] (a call that panics included), the atomic
    [Stats.Gets] equals the gets count of [CacheStats] and
    [Stats.CacheHits] equals its hits count. *)
Theorem Stats_match_CacheStats (nm : string) (cacheNum : Z) (gt : Getter)
    (tr : list Event) (keys : list string) :
  let s := run_gets keys {| grp := newGroupValue nm cacheNum gt; trace := tr |} in
  Gets (g_Stats (grp s)) = cs_Gets (Group_CacheStats (grp s))
  /\ CacheHits (g_Stats (grp s)) = cs_Hits (Group_CacheStats (grp s)).
Proof. apply run_gets_parity_step; reflexivity. Qed.

Lemma counters_inv_step (n : nat) (k : string) (s : GS) :
  counters_inv n s -> Z.of_nat n + 1 < 2 ^ 63 ->
  counters_inv (S n) (snd (Group_Get k s))
  /\ nhit (mainCache (grp s)) <= nhit (mainCache (grp (snd (Group_Get k s))))
  /\ nevict (mainCache (grp s)) <= nevict (mainCache (grp (snd (Group_Get k s)))).
Proof.
  intros (Hg & Hh & He) Hn.
  destruct (Group_Get_counters k s) as (H1 & _ & H3 & H4).
  unfold add64 in *.
  assert (Hg' : nget (mainCache (grp (snd (Group_Get k s)))) = Z.of_nat (S n)).
  { rewrite H1, Hg, wrap64_small; lia. }
  assert (Hh' : nhit (mainCache (grp (snd (Group_Get k s)))) = nhit (mainCache (grp s))
             \/ nhit (mainCache (grp (snd (Group_Get k s)))) = nhit (mainCache (grp s)) + 1).
  { destruct H3 as [[-> _]|[-> _]]; [by left|right]. rewrite wrap64_small; lia. }
  assert (He' : nevict (mainCache (grp (snd (Group_Get k s)))) = nevict (mainCache (grp s))
             \/ nevict (mainCache (grp (snd (Group_Get k s)))) = nevict (mainCache (grp s)) + 1).
  { destruct H4 as [->| ->]; [by left|right]. rewrite wrap64_small; lia. }
  unfold counters_inv. rewrite Hg'. lia.
Qed.

Lemma run_gets_counters_inv (ks : list string) (s : GS) :
  counters_inv 0 s -> Z.of_nat (length ks) < 2 ^ 63 ->
  counters_inv (length ks) (run_gets ks s).
Proof.
  intros H0. induction ks as [|k ks IH] using rev_ind; intros Hn; [exact H0|].
  rewrite run_gets_app, length_app. simpl. rewrite Nat.add_1_r.
  rewrite length_app in Hn. simpl in Hn.
  apply counters_inv_step; [apply IH|]; lia.
Qed.

(** Claim C5 (amended).  On a group created by [NewGroup], after any
    sequence of fewer than 2^63 - 1 [Get] calls, the [CacheStats] snapshot
    has hits <= gets, and one more [Get] call (returning or panicking)
    decreases none of gets, hits and evictions and keeps hits <= gets.
    (Beyond 2^63 calls the int64 counters wrap around.) *)
Theorem CacheStats_monotone (nm : string) (cacheNum : Z) (gt : Getter) (tr : list Event)
    (keys : list string) (k : string) :
  Z.of_nat (length keys) + 1 < 2 ^ 63 ->
  let s := run_gets keys {| grp := newGroupValue nm cacheNum gt; trace := tr |} in
  let cs := Group_CacheStats (grp s) in
  let cs' := Group_CacheStats (grp (snd (Group_Get k s))) in
  cs_Hits cs <= cs_Gets cs
  /\ cs_Hits cs' <= cs_Gets cs'
  /\ cs_Gets cs <= cs_Gets cs'
  /\ cs_Hits cs <= cs_Hits cs'
  /\ Evictions cs <= Evictions cs'.
Proof.
  intros Hn. cbv zeta.
  set (s := run_gets keys {| grp := newGroupValue nm cacheNum gt; trace := tr |}).
  assert (Hinv : counters_inv (length keys) s).
  { apply run_gets_counters_inv; [|lia]. unfold counters_inv; simpl; lia. }
  destruct (counters_inv_step (length keys) k s Hinv Hn) as (Hinv' & Hh & He).
  unfold Group_CacheStats, cache_stats. simpl.
  unfold counters_inv in Hinv, Hinv'. lia.
Qed.

Lemma CacheStats_monotone_witness :
  Z.of_nat (length ["a"; "x"; "a"]) + 1 < 2 ^ 63
  /\ let s := run_gets ["a"; "x"; "a"] {| grp := newGroupValue "demo" 2 demo_getter; trace := [] |} in
     let cs := Group_CacheStats (grp s) in
     let cs' := Group_CacheStats (grp (snd (Group_Get "b" s))) in
     cs_Hits cs <= cs_Gets cs
     /\ cs_Hits cs' <= cs_Gets cs'
     /\ cs_Gets cs <= cs_Gets cs'
     /\ cs_Hits cs <= cs_Hits cs'
     /\ Evictions cs <= Evictions cs'.
Proof.
  assert (H : Z.of_nat (length ["a"; "x"; "a"]) + 1 < 2 ^ 63) by (simpl; lia).
  split; [exact H|]. exact (CacheStats_monotone "demo" 2 demo_getter [] _ "b" H).
Defined.

(** A run of [Get] calls on a key that is absent and whose Getter fails
    only counts gets. *)
Lemma run_gets_failing (n : nat) (k : string) (s : GS) (v : Value) (e : string) :
  lookup_entry k (ll (lru (mainCache (grp s)))) = None ->
  getter (grp s) k = (v, Some e) ->
  in_int64 (nget (mainCache (grp s))) ->
  nget (mainCache (grp (run_gets (repeat k n) s))) = wrap64 (nget (mainCache (grp s)) + Z.of_nat n)
  /\ nhit (mainCache (grp (run_gets (repeat k n) s))) = nhit (mainCache (grp s)).
Proof.
  revert s. induction n as [|n IH]; intros s Hl Hg Hin.
  - simpl. rewrite Z.add_0_r, wrap64_small by exact Hin. done.
  - simpl. rewrite (Group_Get_miss_shape k s Hl). rewrite Hg. simpl.
    destruct s as [[nm gt [[m l] h g e0] st] tr]. simpl in *.
    destruct (IH {| grp := {| name := nm; getter := gt;
                              mainCache := incr_nget {| lru := {| MaxEntries := m; ll := l |};
                                                        nhit := h; nget := g; nevict := e0 |};
                              g_Stats := {| Gets := add64 (Gets st) 1; CacheHits := CacheHits st |} |};
                     trace := tr ++ [EvGetter k] |}) as [IH1 IH2]; simpl; try done.
    { apply add64_in_int64. }
    rewrite IH1, IH2. split; [|done]. simpl.
    unfold add64. rewrite wrap64_add_wrap. f_equal. lia.
Qed.

(** Claim C5, counterexample.  With a Getter failing for "x", 2^63 - 1
    calls [Get("x")] bring gets to 2^63 - 1; the next call wraps the int64
    counter to -2^63: gets decreases and falls below hits (0). *)
Lemma CacheStats_wrap_cex :
  let n := Z.to_nat (2 ^ 63 - 1) in
  cs_Gets (Group_CacheStats (grp (run_gets (repeat "x" n) (demo_group 1)))) = 2 ^ 63 - 1
  /\ cs_Gets (Group_CacheStats (grp (run_gets (repeat "x" (S n)) (demo_group 1)))) = - 2 ^ 63
  /\ cs_Hits (Group_CacheStats (grp (run_gets (repeat "x" (S n)) (demo_group 1)))) = 0.
Proof.
  cbv zeta.
  assert (Hl : lookup_entry "x" (ll (lru (mainCache (grp (demo_group 1))))) = None) by reflexivity.
  assert (Hg : getter (grp (demo_group 1)) "x" = (None, Some "not found")) by reflexivity.
  assert (Hin : in_int64 (nget (mainCache (grp (demo_group 1))))) by (unfold in_int64; simpl; lia).
  destruct (run_gets_failing (Z.to_nat (2 ^ 63 - 1)) "x" _ _ _ Hl Hg Hin) as [H1 _].
  destruct (run_gets_failing (S (Z.to_nat (2 ^ 63 - 1))) "x" _ _ _ Hl Hg Hin) as [H2 H3].
  unfold Group_CacheStats, cache_stats. cbn [cs_Gets cs_Hits].
  rewrite H1, H2, H3. rewrite Nat2Z.inj_succ, Z2Nat.id by lia.
  split; [|split]; reflexivity.
Qed.

(** ** Group creation and lookup *)

Lemma NewGroup_fresh (nm : string) (cacheNum : Z) (gt : Getter) (w : World) :
  groups w !! nm = None ->
  NewGroup nm cacheNum gt w =
    (Ret (next_loc w),
     {| groups := <[nm := next_loc w]> (groups w);
        heap := <[next_loc w := newGroupValue nm cacheNum gt]> (heap w);
        next_loc := N.succ (next_loc w);
        newGroupHook := newGroupHook w;
        wtrace := wtrace w ++ hook_events w (next_loc w) |}).
Proof.
  intros H. unfold NewGroup, st_bind, st_get, st_ret, alloc, call_hook, register,
    st_modify, hook_events. simpl. rewrite H.
  destruct (newGroupHook w); simpl; [done|]. by rewrite app_nil_r.
Qed.

Lemma NewGroup_dup (nm : string) (cacheNum : Z) (gt : Getter) (w : World) (l : loc) :
  groups w !! nm = Some l ->
  NewGroup nm cacheNum gt w = (Panic (String.append "duplicate registration of group " nm), w).
Proof.
  intros H. unfold NewGroup, st_bind, st_get, st_panic. simpl. by rewrite H.
Qed.

(** Claim C6 (amended).  [NewGroup] with a fresh name allocates a new
    [Group] whose cache is empty, of capacity [cacheNum], with zero
    counters, registers it under the name and returns it; if a hook is
    installed it is called exactly once with the new Group, before
    [NewGroup] returns, but BEFORE [groups[name] = g]: the registry seen by
    the hook has no entry for the name.  Without a hook no event occurs. *)
Theorem NewGroup_registers_and_hooks (nm : string) (cacheNum : Z) (gt : Getter) (w : World) :
  groups w !! nm = None ->
  exists w',
    NewGroup nm cacheNum gt w = (Ret (next_loc w), w')
    /\ heap w' !! next_loc w = Some (newGroupValue nm cacheNum gt)
    /\ mainCache (newGroupValue nm cacheNum gt)
       = {| lru := {| MaxEntries := cacheNum; ll := [] |}; nhit := 0; nget := 0; nevict := 0 |}
    /\ groups w' = <[nm := next_loc w]> (groups w)
    /\ fst (GetGroup nm w') = Ret (Some (next_loc w))
    /\ (forall h, newGroupHook w = Some h ->
          exists reg, wtrace w' = wtrace w ++ [EvHook h (next_loc w) reg] /\ reg !! nm = None)
    /\ (newGroupHook w = None -> wtrace w' = wtrace w).
Proof.
  intros H. eexists. rewrite (NewGroup_fresh nm cacheNum gt w H).
  split; [reflexivity|]. simpl. rewrite lookup_insert_eq.
  split; [reflexivity|]. split; [reflexivity|]. split; [reflexivity|].
  split; [unfold GetGroup; simpl; by rewrite lookup_insert_eq|].
  unfold hook_events. split.
  - intros h Hh. rewrite Hh. by exists (groups w).
  - intros Hh. rewrite Hh. apply app_nil_r.
Qed.

Lemma NewGroup_registers_and_hooks_witness :
  groups (world0 (Some 7%nat)) !! "a" = None
  /\ exists w',
    NewGroup "a" 1 demo_getter (world0 (Some 7%nat)) = (Ret (next_loc (world0 (Some 7%nat))), w')
    /\ heap w' !! next_loc (world0 (Some 7%nat)) = Some (newGroupValue "a" 1 demo_getter)
    /\ mainCache (newGroupValue "a" 1 demo_getter)
       = {| lru := {| MaxEntries := 1; ll := [] |}; nhit := 0; nget := 0; nevict := 0 |}
    /\ groups w' = <[ "a" := next_loc (world0 (Some 7%nat))]> (groups (world0 (Some 7%nat)))
    /\ fst (GetGroup "a" w') = Ret (Some (next_loc (world0 (Some 7%nat))))
    /\ (forall h, newGroupHook (world0 (Some 7%nat)) = Some h ->
          exists reg, wtrace w' = wtrace (world0 (Some 7%nat)) ++ [EvHook h (next_loc (world0 (Some 7%nat))) reg]
                      /\ reg !! "a" = None)
    /\ (newGroupHook (world0 (Some 7%nat)) = None -> wtrace w' = wtrace (world0 (Some 7%nat))).
Proof.
  assert (H : groups (world0 (Some 7%nat)) !! "a" = None) by reflexivity.
  split; [exact H|]. exact (NewGroup_registers_and_hooks "a" 1 demo_getter _ H).
Defined.

(** Claim C6, counterexample.  With a hook installed, [NewGroup("a", 1,
    demo_getter)] on an empty registry calls the hook once with the new
    group, but the registry at that moment has no entry "a"; "a" is
    registered only after the hook returns. *)
Lemma NewGroup_hook_before_register_cex :
  let r := NewGroup "a" 1 demo_getter (world0 (Some 7%nat)) in
  fst r = Ret 0%N
  /\ groups (snd r) !! "a" = Some 0%N
  /\ exists reg, wtrace (snd r) = [EvHook 7 0%N reg] /\ reg !! "a" = None.
Proof.
  cbv zeta. rewrite (NewGroup_fresh "a" 1 demo_getter (world0 (Some 7%nat)) eq_refl).
  simpl. split; [reflexivity|]. split; [by rewrite lookup_insert_eq|].
  exists ∅. split; reflexivity.
Qed.

(** Claim C7.  [NewGroup] under a registered name panics, with the
    message "duplicate registration of group <name>" and the registry left
    as it was; [RegisterNewGroupHook] panics when a hook is already
    installed; [NewGroup] under two distinct fresh names returns twice, two
    different groups, and [GetGroup] then finds each of them under its name. *)
Theorem NewGroup_fatal_and_lookup :
  (forall nm cacheNum gt w l, groups w !! nm = Some l ->
     NewGroup nm cacheNum gt w = (Panic (String.append "duplicate registration of group " nm), w))
  /\ (forall fn h w, newGroupHook w = Some h ->
     RegisterNewGroupHook fn w = (Panic "RegisterNewGroupHook called more than once", w))
  /\ (forall n1 n2 c1 c2 gt1 gt2 w, n1 <> n2 ->
     groups w !! n1 = None -> groups w !! n2 = None ->
     exists w1 w2,
       NewGroup n1 c1 gt1 w = (Ret (next_loc w), w1)
       /\ NewGroup n2 c2 gt2 w1 = (Ret (N.succ (next_loc w)), w2)
       /\ next_loc w <> N.succ (next_loc w)
       /\ fst (GetGroup n1 w2) = Ret (Some (next_loc w))
       /\ fst (GetGroup n2 w2) = Ret (Some (N.succ (next_loc w)))
       /\ heap w2 !! next_loc w = Some (newGroupValue n1 c1 gt1)
       /\ heap w2 !! N.succ (next_loc w) = Some (newGroupValue n2 c2 gt2)).
Proof.
  split; [|split].
  - intros nm cacheNum gt w l H. exact (NewGroup_dup nm cacheNum gt w l H).
  - intros fn h w H. unfold RegisterNewGroupHook. by rewrite H.
  - intros n1 n2 c1 c2 gt1 gt2 w Hne H1 H2.
    do 2 eexists. split; [exact (NewGroup_fresh n1 c1 gt1 w H1)|].
    split.
    { rewrite (NewGroup_fresh n2 c2 gt2); [reflexivity|]. simpl.
      by rewrite lookup_insert_ne by congruence. }
    assert (Hl : next_loc w <> N.succ (next_loc w)) by lia.
    split; [exact Hl|]. unfold GetGroup; simpl.
    rewrite lookup_insert_ne by congruence. rewrite !lookup_insert_eq.
    rewrite lookup_insert_ne by congruence. rewrite lookup_insert_eq.
    repeat split; reflexivity.
Qed.

Lemma NewGroup_fatal_and_lookup_witness :
  NewGroup "a" 1 demo_getter
    (snd (NewGroup "a" 2 demo_getter (world0 None)))
  = (Panic "duplicate registration of group a", snd (NewGroup "a" 2 demo_getter (world0 None)))
  /\ RegisterNewGroupHook (Some 8%nat) (world0 (Some 7%nat))
     = (Panic "RegisterNewGroupHook called more than once", world0 (Some 7%nat))
  /\ fst (GetGroup "a" (snd (NewGroup "b" 3 demo_getter (snd (NewGroup "a" 2 demo_getter (world0 None))))))
     = Ret (Some 0%N).
Proof.
  destruct NewGroup_fatal_and_lookup as (Hd & Hh & Hn).
  split; [|split].
  - apply (Hd "a" 1 demo_getter _ 0%N). reflexivity.
  - apply (Hh _ 7%nat). reflexivity.
  - destruct (Hn "a" "b" 2 3 demo_getter demo_getter (world0 None)) as (w1 & w2 & E1 & E2 & _ & G1 & _);
      [discriminate | reflexivity | reflexivity |].
    rewrite E1. simpl. rewrite E2. exact G1.
Defined.

(** * Further properties of the code *)

(** ** Counting the calls of Get *)

Lemma run_gets_Gets (ks : list string) (s : GS) :
  in_int64 (Gets (g_Stats (grp s))) -> in_int64 (nget (mainCache (grp s))) ->
  Gets (g_Stats (grp (run_gets ks s))) = wrap64 (Gets (g_Stats (grp s)) + Z.of_nat (length ks))
  /\ nget (mainCache (grp (run_gets ks s)))
     = wrap64 (nget (mainCache (grp s)) + Z.of_nat (length ks)).
Proof.
  revert s. induction ks as [|k ks IH]; intros s H1 H2; simpl.
  - rewrite !Z.add_0_r, !wrap64_small by assumption. done.
  - destruct (Group_Get_counters k s) as (Hn & Hg & _).
    destruct (IH (snd (Group_Get k s))) as [IH1 IH2];
      [rewrite Hg; apply add64_in_int64 | rewrite Hn; apply add64_in_int64 |].
    rewrite IH1, IH2, Hg, Hn. unfold add64. rewrite !wrap64_add_wrap.
    split; f_equal; lia.
Qed.

(** [Stats.Gets] of a group created by [NewGroup], read with
    [AtomicInt.Get], and the gets count of [CacheStats] are both the number
    of [Get] calls made, panicking ones included, modulo the int64
    wrap-around. *)
Theorem Gets_counts_calls (nm : string) (cacheNum : Z) (gt : Getter) (tr : list Event)
    (keys : list string) :
  let s := run_gets keys {| grp := newGroupValue nm cacheNum gt; trace := tr |} in
  AtomicInt_Get (Gets (g_Stats (grp s))) = wrap64 (Z.of_nat (length keys))
  /\ cs_Gets (Group_CacheStats (grp s)) = wrap64 (Z.of_nat (length keys)).
Proof.
  cbv zeta. unfold AtomicInt_Get, Group_CacheStats, cache_stats. cbn [cs_Gets].
  destruct (run_gets_Gets keys {| grp := newGroupValue nm cacheNum gt; trace := tr |})
    as [H1 H2]; simpl; try (unfold in_int64; lia).
  simpl in H1, H2. rewrite H1, H2. done.
Qed.

(** ** Evictions and misses *)

(** A call [g.Get(k)] either leaves the hits count and adds at most one
    eviction, or adds one hit and no eviction. *)
Lemma Group_Get_hit_or_evict (k : string) (s : GS) :
  let s' := snd (Group_Get k s) in
  (nhit (mainCache (grp s')) = nhit (mainCache (grp s))
   /\ (nevict (mainCache (grp s')) = nevict (mainCache (grp s))
       \/ nevict (mainCache (grp s')) = add64 (nevict (mainCache (grp s))) 1))
  \/ (nhit (mainCache (grp s')) = add64 (nhit (mainCache (grp s))) 1
      /\ nevict (mainCache (grp s')) = nevict (mainCache (grp s))).
Proof.
  destruct (lookup_entry k (ll (lru (mainCache (grp s))))) as [v|] eqn:Hl.
  - rewrite (Group_Get_hit_shape k s v Hl).
    destruct v as [o|]; simpl; [right; split; reflexivity|left; split; [reflexivity|left; reflexivity]].
  - rewrite (Group_Get_miss_shape k s Hl). cbv zeta.
    destruct (getter (grp s) k) as [v [e|]].
    + simpl. left. split; [reflexivity|left; reflexivity].
    + set (s1 := {| grp := grp (bump_get s); trace := trace s ++ [EvGetter k] |}).
      pose proof (cache_add_counters k v s1) as (_ & H2 & _ & H4).
      rewrite snd_bind_ret. left. rewrite H2. simpl in H4 |- *. split; [reflexivity|exact H4].
Qed.

Lemma run_gets_evictions (ks : list string) (s : GS) :
  nget (mainCache (grp s)) = 0 -> nhit (mainCache (grp s)) = 0 ->
  nevict (mainCache (grp s)) = 0 ->
  Z.of_nat (length ks) < 2 ^ 63 ->
  0 <= nevict (mainCache (grp (run_gets ks s)))
     <= nget (mainCache (grp (run_gets ks s))) - nhit (mainCache (grp (run_gets ks s))).
Proof.
  intros Hg Hh He. induction ks as [|k ks IH] using rev_ind; intros Hn.
  - simpl. lia.
  - rewrite run_gets_app. simpl.
    rewrite length_app in Hn. simpl in Hn.
    assert (Hinv : counters_inv (length ks) (run_gets ks s)).
    { apply run_gets_counters_inv; [unfold counters_inv; lia|lia]. }
    specialize (IH ltac:(lia)).
    destruct (counters_inv_step (length ks) k (run_gets ks s) Hinv ltac:(lia))
      as ((Hg' & _) & _).
    unfold counters_inv in Hinv. destruct Hinv as (Hg0 & Hh0 & He0).
    destruct (Group_Get_hit_or_evict k (run_gets ks s)) as [[Hh1 [He1|He1]]|[Hh1 He1]];
      rewrite Hg'; rewrite ?Hh1, ?He1; unfold add64; rewrite ?wrap64_small; lia.
Qed.

(** On a group created by [NewGroup], while fewer than 2^63 [Get] calls
    have been made, the evictions count of [CacheStats] is at least 0 and
    at most the number of misses (gets - hits): a hit never evicts, a miss
    evicts at most one entry. *)
Theorem Evictions_le_misses (nm : string) (cacheNum : Z) (gt : Getter) (tr : list Event)
    (keys : list string) :
  Z.of_nat (length keys) < 2 ^ 63 ->
  let cs := Group_CacheStats (grp (run_gets keys {| grp := newGroupValue nm cacheNum gt;
                                                    trace := tr |})) in
  0 <= Evictions cs <= cs_Gets cs - cs_Hits cs.
Proof.
  intros Hn. cbv zeta. unfold Group_CacheStats, cache_stats. cbn [Evictions cs_Gets cs_Hits].
  apply run_gets_evictions; [reflexivity|reflexivity|reflexivity|exact Hn].
Qed.

Lemma Evictions_le_misses_witness :
  let cs := Group_CacheStats (grp (run_gets ["a"; "b"; "c"; "a"; "x"]
                                   {| grp := newGroupValue "demo" 2 demo_getter; trace := [] |})) in
  0 <= Evictions cs <= cs_Gets cs - cs_Hits cs.
Proof. apply Evictions_le_misses. simpl. lia. Defined.

(** ** Loading once *)

(** Two calls [g.Get(k)] in a row for a key not in the cache, whose
    Getter succeeds with a non-nil Value (the entry evicted by its
    insertion, if any, holding a non-nil Value too), in a cache with room
    for at least one entry: both return the Value with a nil error and the
    Getter runs once, for the first call; the second is a hit. *)
Theorem Get_twice_loads_once (k : string) (s : GS) (o : ValObj)
    (ev : list (string * Value)) (l' : lruCache) :
  keys_nodup (ll (lru (mainCache (grp s)))) ->
  in_int64 (nevict (mainCache (grp s))) ->
  lookup_entry k (ll (lru (mainCache (grp s)))) = None ->
  getter (grp s) k = (Some o, None) ->
  lru_Add k (Some o) (lru (mainCache (grp s))) = (ev, l') ->
  Forall (fun e => snd e <> None) ev ->
  1 <= MaxEntries (lru (mainCache (grp s))) ->
  Z.of_nat (length (ll (lru (mainCache (grp s))))) <= MaxEntries (lru (mainCache (grp s))) ->
  let '(r1, s1) := Group_Get k s in
  let '(r2, s2) := Group_Get k s1 in
  r1 = Ret (Some o, None)
  /\ r2 = Ret (Some o, None)
  /\ trace s2 = trace s ++ EvGetter k :: map EvDispose (values_of ev).
Proof.
  intros Hnd Hin Hl Hg Hadd Hnn Hcap Hlen.
  pose proof (Group_Get_load_ok_spec k s (Some o) ev l' Hnd Hin Hl Hg Hadd Hnn) as H.
  destruct (Group_Get k s) as [r1 s1]. destruct H as (Hr1 & _ & Htr & Hres).
  specialize (Hres Hcap Hlen).
  rewrite (Group_Get_hit_shape k s1 (Some o) Hres). simpl.
  split; [exact Hr1|]. split; [reflexivity|exact Htr].
Qed.

Lemma Get_twice_loads_once_witness :
  let '(r1, s1) := Group_Get "c" (run_gets ["a"; "b"] (demo_group 2)) in
  let '(r2, s2) := Group_Get "c" s1 in
  r1 = Ret (Some (obj 3), None)
  /\ r2 = Ret (Some (obj 3), None)
  /\ trace s2 = trace (run_gets ["a"; "b"] (demo_group 2))
                ++ EvGetter "c" :: map EvDispose (values_of [("a", Some (obj 1))]).
Proof.
  apply (Get_twice_loads_once "c" _ (obj 3) [("a", Some (obj 1))]
           {| MaxEntries := 2; ll := [("c", Some (obj 3)); ("b", Some (obj 2))] |}).
  - apply (bool_decide_unpack _); vm_compute; exact I.
  - split; vm_compute; [intros Hc; discriminate Hc | reflexivity].
  - vm_compute; reflexivity.
  - vm_compute; reflexivity.
  - vm_compute; reflexivity.
  - constructor; [simpl; discriminate|constructor].
  - vm_compute; discriminate.
  - vm_compute; discriminate.
Defined.

(** ** The registry *)

Lemma registry_ok_NewGroup (nm : string) (cacheNum : Z) (gt : Getter) (w : World) :
  registry_ok w -> registry_ok (snd (NewGroup nm cacheNum gt w)).
Proof.
  intros [H1 H2]. destruct (groups w !! nm) as [l|] eqn:E.
  - rewrite (NewGroup_dup nm cacheNum gt w l E). simpl. by split.
  - rewrite (NewGroup_fresh nm cacheNum gt w E). cbn [snd]. split; cbn [groups heap next_loc].
    + intros nm' l. destruct (decide (nm' = nm)) as [->|Hne].
      * rewrite lookup_insert_eq. intros [= <-].
        exists (newGroupValue nm cacheNum gt). by rewrite lookup_insert_eq.
      * rewrite lookup_insert_ne by congruence. intros Hl.
        destruct (H1 _ _ Hl) as (g & Hg & Hn). exists g. split; [|done].
        pose proof (H2 _ _ Hg). rewrite lookup_insert_ne; [done|lia].
    + intros l g. destruct (decide (l = next_loc w)) as [->|Hne]; [lia|].
      rewrite lookup_insert_ne by congruence. intros Hg. pose proof (H2 _ _ Hg). lia.
Qed.

Lemma registry_ok_Register (fn : option nat) (w : World) :
  registry_ok w -> registry_ok (snd (RegisterNewGroupHook fn w)).
Proof.
  intros H. unfold RegisterNewGroupHook. destruct (newGroupHook w); exact H.
Qed.

Lemma reachable_registry_ok (w : World) : reachable w -> registry_ok w.
Proof.
  induction 1 as [| nm cacheNum gt w _ IH | fn w _ IH | nm w _ IH].
  - split; simpl; intros *; by rewrite lookup_empty.
  - by apply registry_ok_NewGroup.
  - by apply registry_ok_Register.
  - exact IH.
Qed.

(** In every world the registry functions reach from the start of the
    process, [GetGroup(name)] returns either nil or an allocated group
    whose [Name()] is [name], and two names never return the same group. *)
Theorem GetGroup_consistent (w : World) :
  reachable w ->
  (forall nm l, fst (GetGroup nm w) = Ret (Some l) ->
     exists g, heap w !! l = Some g /\ Group_Name g = nm)
  /\ (forall n1 n2 l, fst (GetGroup n1 w) = Ret (Some l) -> fst (GetGroup n2 w) = Ret (Some l) ->
        n1 = n2).
Proof.
  intros Hr. destruct (reachable_registry_ok w Hr) as [H1 _]. unfold GetGroup, Group_Name; simpl.
  split.
  - intros nm l [= Hl]. exact (H1 nm l Hl).
  - intros n1 n2 l [= E1] [= E2].
    destruct (H1 _ _ E1) as (g1 & G1 & N1). destruct (H1 _ _ E2) as (g2 & G2 & N2).
    rewrite G1 in G2. injection G2 as ->. congruence.
Qed.

Lemma GetGroup_consistent_witness :
  let w := snd (NewGroup "b" 2 demo_getter
                  (snd (RegisterNewGroupHook (Some 7%nat)
                          (snd (NewGroup "a" 1 demo_getter (world0 None)))))) in
  (forall nm l, fst (GetGroup nm w) = Ret (Some l) ->
     exists g, heap w !! l = Some g /\ Group_Name g = nm)
  /\ (forall n1 n2 l, fst (GetGroup n1 w) = Ret (Some l) -> fst (GetGroup n2 w) = Ret (Some l) ->
        n1 = n2).
Proof.
  apply GetGroup_consistent. apply reach_NewGroup, reach_Register, reach_NewGroup, reach_init.
Defined.

(** On a consistent registry, [NewGroup(name, ...)], whether it returns or
    panics, changes no registration: [GetGroup] of every other name returns
    what it returned before, and a group already registered (under any
    name, [name] included) stays registered and unchanged. *)
Theorem NewGroup_keeps_registrations (nm : string) (cacheNum : Z) (gt : Getter) (w : World) :
  registry_ok w ->
  let w' := snd (NewGroup nm cacheNum gt w) in
  (forall nm', nm' <> nm -> fst (GetGroup nm' w') = fst (GetGroup nm' w))
  /\ (forall nm' l, fst (GetGroup nm' w) = Ret (Some l) ->
        fst (GetGroup nm' w') = Ret (Some l) /\ heap w' !! l = heap w !! l).
Proof.
  intros [H1 H2]. cbv zeta. unfold GetGroup; simpl.
  destruct (groups w !! nm) as [l0|] eqn:E.
  - rewrite (NewGroup_dup nm cacheNum gt w l0 E). simpl. split; [done|]. intros nm' l Hl; done.
  - rewrite (NewGroup_fresh nm cacheNum gt w E). simpl. split.
    + intros nm' Hne. by rewrite lookup_insert_ne by congruence.
    + intros nm' l [= Hl].
      assert (Hne : nm' <> nm) by congruence.
      rewrite lookup_insert_ne by congruence. split; [by rewrite Hl|].
      destruct (H1 _ _ Hl) as (g & Hg & _). pose proof (H2 _ _ Hg).
      rewrite lookup_insert_ne; [done|lia].
Qed.

Lemma NewGroup_keeps_registrations_witness :
  let w := snd (NewGroup "a" 1 demo_getter (world0 None)) in
  let w' := snd (NewGroup "a" 5 demo_getter w) in
  (forall nm', nm' <> "a" -> fst (GetGroup nm' w') = fst (GetGroup nm' w))
  /\ (forall nm' l, fst (GetGroup nm' w) = Ret (Some l) ->
        fst (GetGroup nm' w') = Ret (Some l) /\ heap w' !! l = heap w !! l).
Proof.
  apply NewGroup_keeps_registrations. apply reachable_registry_ok.
  apply reach_NewGroup, reach_init.
Defined.

(** Registering the nil hook leaves no hook installed, so a later
    registration succeeds; once a non-nil hook is installed every further
    registration panics.  Registration touches neither the registry nor the
    groups. *)
Theorem RegisterNewGroupHook_nil (w : World) (h : nat) (fn : option nat) :
  newGroupHook w = None ->
  let w1 := snd (RegisterNewGroupHook None w) in
  let w2 := snd (RegisterNewGroupHook (Some h) w1) in
  fst (RegisterNewGroupHook None w) = Ret tt
  /\ newGroupHook w1 = None
  /\ fst (RegisterNewGroupHook (Some h) w1) = Ret tt
  /\ newGroupHook w2 = Some h
  /\ RegisterNewGroupHook fn w2 = (Panic "RegisterNewGroupHook called more than once", w2)
  /\ groups w2 = groups w /\ heap w2 = heap w.
Proof.
  intros H. cbv zeta. unfold RegisterNewGroupHook. rewrite H. simpl. repeat split.
Qed.

Lemma RegisterNewGroupHook_nil_witness :
  let w1 := snd (RegisterNewGroupHook None (world0 None)) in
  let w2 := snd (RegisterNewGroupHook (Some 3%nat) w1) in
  fst (RegisterNewGroupHook None (world0 None)) = Ret tt
  /\ newGroupHook w1 = None
  /\ fst (RegisterNewGroupHook (Some 3%nat) w1) = Ret tt
  /\ newGroupHook w2 = Some 3%nat
  /\ RegisterNewGroupHook (Some 4%nat) w2 = (Panic "RegisterNewGroupHook called more than once", w2)
  /\ groups w2 = groups (world0 None) /\ heap w2 = heap (world0 None).
Proof. apply RegisterNewGroupHook_nil. reflexivity. Defined.

(** ** What Get never changes *)

Lemma cache_onEvicted_frame (k : string) (v : Value) (s : GS) :
  let s' := snd (cache_onEvicted k v s) in
  name (grp s') = name (grp s) /\ getter (grp s') = getter (grp s)
  /\ lru (mainCache (grp s')) = lru (mainCache (grp s)).
Proof.
  destruct v as [o|];
    unfold cache_onEvicted, assert_Value, Dispose, emit, upd_cache, st_bind, st_ret,
      st_modify, st_panic; simpl; auto.
Qed.

Lemma run_onEvicted_frame (ev : list (string * Value)) (s : GS) :
  let s' := snd (run_onEvicted ev s) in
  name (grp s') = name (grp s) /\ getter (grp s') = getter (grp s)
  /\ lru (mainCache (grp s')) = lru (mainCache (grp s)).
Proof.
  revert s. induction ev as [|[k v] ev IH]; intros s; simpl; [done|].
  unfold st_bind. pose proof (cache_onEvicted_frame k v s) as Hf.
  destruct (cache_onEvicted k v s) as [[[]|msg] s1]; simpl in Hf |- *; [|exact Hf].
  destruct (IH s1) as (A & B & C). destruct Hf as (A' & B' & C').
  rewrite A, B, C. auto.
Qed.

Lemma lru_Add_MaxEntries (k : string) (v : Value) (c : lruCache) :
  MaxEntries (snd (lru_Add k v c)) = MaxEntries c.
Proof.
  unfold lru_Add. destruct (lookup_entry k (ll c)) as [old|].
  - by destruct (decide (old = v)).
  - by destruct (Z.ltb _ _).
Qed.

Lemma lru_Get_MaxEntries (k : string) (c : lruCache) :
  MaxEntries (snd (lru_Get k c)) = MaxEntries c.
Proof. unfold lru_Get. by destruct (lookup_entry k (ll c)). Qed.

Lemma Group_Get_frame (k : string) (s : GS) :
  let s' := snd (Group_Get k s) in
  name (grp s') = name (grp s) /\ getter (grp s') = getter (grp s)
  /\ MaxEntries (lru (mainCache (grp s'))) = MaxEntries (lru (mainCache (grp s))).
Proof.
  destruct (lookup_entry k (ll (lru (mainCache (grp s))))) as [v|] eqn:Hl.
  - rewrite (Group_Get_hit_shape k s v Hl).
    destruct v as [o|]; simpl; rewrite lru_Get_MaxEntries; auto.
  - rewrite (Group_Get_miss_shape k s Hl). cbv zeta.
    destruct (getter (grp s) k) as [v [e|]]; [simpl; auto|].
    set (s1 := {| grp := grp (bump_get s); trace := trace s ++ [EvGetter k] |}).
    rewrite snd_bind_ret, cache_add_unfold.
    pose proof (lru_Add_MaxEntries k v (lru (mainCache (grp s1)))) as HM.
    destruct (lru_Add k v (lru (mainCache (grp s1)))) as [ev l']. simpl in HM.
    destruct (run_onEvicted_frame ev (set_cache_in (set_lru l' (mainCache (grp s1))) s1))
      as (A & B & C).
    rewrite A, B, C. subst s1. simpl in HM |- *. rewrite HM. auto.
Qed.

(** No sequence of [Get] calls, panicking ones included, changes a group's
    [Name()], its Getter or the capacity of its cache. *)
Theorem run_gets_frame (keys : list string) (s : GS) :
  Group_Name (grp (run_gets keys s)) = Group_Name (grp s)
  /\ getter (grp (run_gets keys s)) = getter (grp s)
  /\ MaxEntries (lru (mainCache (grp (run_gets keys s)))) = MaxEntries (lru (mainCache (grp s))).
Proof.
  unfold Group_Name. revert s. induction keys as [|k keys IH]; intros s; simpl; [done|].
  destruct (IH (snd (Group_Get k s))) as (A & B & C).
  destruct (Group_Get_frame k s) as (A' & B' & C').
  rewrite A, B, C, A', B', C'. auto.
Qed.

(** ** AtomicInt.String *)

Lemma digit_char_nat (d : Z) :
  0 <= d < 10 -> nat_of_ascii (digit_char d) = (48 + Z.to_nat d)%nat.
Proof. intros Hd. unfold digit_char. apply nat_ascii_embedding. lia. Qed.

Lemma dec_acc_digit (d : Z) (s : string) (acc : Z) :
  0 <= d < 10 -> dec_acc (String (digit_char d) s) acc = dec_acc s (10 * acc + d).
Proof.
  intros Hd. cbn [dec_acc]. rewrite digit_char_nat by exact Hd.
  replace (Z.of_nat (48 + Z.to_nat d) - 48) with d by lia.
  replace (Z.leb 0 d && Z.ltb d 10) with true; [reflexivity|].
  symmetry. apply andb_true_iff. split; [apply Z.leb_le | apply Z.ltb_lt]; lia.
Qed.

Lemma fmt_digits_S (f : nat) (u : Z) (acc : string) :
  fmt_digits (S f) u acc =
    if Z.ltb u 10 then String (digit_char (u mod 10)) acc
    else fmt_digits f (u / 10) (String (digit_char (u mod 10)) acc).
Proof. reflexivity. Qed.

Lemma fmt_digits_dec (f : nat) (u : Z) (acc : string) (a : Z) :
  0 <= u < 10 ^ Z.of_nat (S f) ->
  exists m, dec_acc (fmt_digits (S f) u acc) a = dec_acc acc (a * m + u).
Proof.
  revert u acc a. induction f as [|f IH]; intros u acc a Hu; rewrite fmt_digits_S;
    pose proof (Z.mod_pos_bound u 10 ltac:(lia)) as Hm;
    pose proof (Z.div_mod u 10 ltac:(lia)) as Hdm;
    destruct (Z.ltb_spec u 10) as [Hlt|Hge].
  - exists 10. rewrite dec_acc_digit by lia. rewrite Z.mod_small by lia. f_equal. lia.
  - simpl in Hu. lia.
  - exists 10. rewrite dec_acc_digit by lia. rewrite Z.mod_small by lia. f_equal. lia.
  - assert (Hu' : 0 <= u / 10 < 10 ^ Z.of_nat (S f)).
    { split; [apply Z.div_pos; lia|]. apply Z.div_lt_upper_bound; [lia|].
      rewrite Nat2Z.inj_succ, Z.pow_succ_r in Hu by lia. lia. }
    destruct (IH (u / 10) (String (digit_char (u mod 10)) acc) a Hu') as [m Hm'].
    exists (10 * m). rewrite Hm', dec_acc_digit by lia. f_equal. nia.
Qed.

Lemma fmt_digits_head (f : nat) (u : Z) (acc : string) :
  exists d rest, 0 <= d < 10 /\ fmt_digits (S f) u acc = String (digit_char d) rest.
Proof.
  revert u acc. induction f as [|f IH]; intros u acc; rewrite fmt_digits_S;
    pose proof (Z.mod_pos_bound u 10 ltac:(lia)) as Hm.
  - destruct (Z.ltb u 10); eexists _, _; (split; [exact Hm|reflexivity]).
  - destruct (Z.ltb u 10); [eexists _, _; (split; [exact Hm|reflexivity])|].
    apply IH.
Qed.

Lemma digit_char_not_minus (d : Z) : 0 <= d < 10 -> Ascii.eqb (digit_char d) "-" = false.
Proof.
  intros Hd. destruct (Ascii.eqb_spec (digit_char d) "-") as [E|]; [|done].
  apply (f_equal nat_of_ascii) in E. rewrite digit_char_nat in E by exact Hd.
  change (nat_of_ascii "-") with 45%nat in E. lia.
Qed.

Lemma dec_digits_fmt (f : nat) (u : Z) :
  0 <= u < 10 ^ Z.of_nat (S f) -> dec_digits (fmt_digits (S f) u EmptyString) = Some u.
Proof.
  intros Hu. destruct (fmt_digits_head f u EmptyString) as (d & rest & Hd & E).
  unfold dec_digits. rewrite E. rewrite <- E.
  destruct (fmt_digits_dec f u EmptyString 0 Hu) as [m Hm]. rewrite Hm. simpl. f_equal; lia.
Qed.

Lemma read_dec_digit (d : Z) (rest : string) :
  0 <= d < 10 -> read_dec (String (digit_char d) rest) = dec_digits (String (digit_char d) rest).
Proof. intros Hd. unfold read_dec. by rewrite digit_char_not_minus. Qed.

(** [AtomicInt.String()] prints an int64 value as a decimal numeral (a
    minus sign for a negative value, then ASCII digits) that reads back as
    the value, the most negative int64 included. *)
Theorem AtomicInt_String_read (i : Z) :
  in_int64 i -> read_dec (AtomicInt_String i) = Some i.
Proof.
  intros Hi. unfold in_int64 in Hi.
  assert (Hp : 2 ^ 63 < 10 ^ Z.of_nat 20) by (vm_compute; reflexivity).
  unfold AtomicInt_String, AtomicInt_Get, FormatInt. destruct (Z.ltb_spec i 0) as [Hn|Hn].
  - unfold read_dec. cbn [Ascii.eqb Bool.eqb andb].
    rewrite (dec_digits_fmt 19 (- i)) by lia. simpl. f_equal. lia.
  - destruct (fmt_digits_head 19 i EmptyString) as (d & rest & Hd & E).
    change (fmt_digits 20 i EmptyString) with (fmt_digits (S 19) i EmptyString).
    rewrite E, read_dec_digit by exact Hd. rewrite <- E. apply dec_digits_fmt. lia.
Qed.

Lemma AtomicInt_String_read_witness : read_dec (AtomicInt_String (- 2 ^ 63)) = Some (- 2 ^ 63).
Proof. apply AtomicInt_String_read. unfold in_int64. lia. Defined.
